(** * A doubly-linked deque in C: memory model, operations and their properties

    Shallow embedding of [nautilus_trader/core/deque.c] (with [deque.h]).
    The C functions work on a heap of [malloc]ed structs through raw pointers,
    so the embedding threads an explicit memory through every operation and
    distinguishes three outcomes of a call: it returns, it stops at a failed
    [assert], or it has undefined behaviour (a dereference of [NULL] or of a
    pointer that does not point to a live object of the right struct type). *)

From Stdlib Require Import ZArith.
From stdpp Require Import base option list gmap.

Open Scope Z_scope.

(** ** Data model *)

(** Addresses of heap blocks.  A pointer is either [NULL] or an address. *)
Definition addr := positive.
Definition ptr := option addr.
Abbreviation NULL := (@None positive) (only parsing).

(** [typedef int deque_val_type;]  The functions only copy values, they do
    no arithmetic on them, so the integers are taken unbounded. *)
Definition deque_val_type := Z.

(** [struct node_struct { struct node_struct *next, *prev; deque_val_type val; }] *)
Record node_struct := {
  next : ptr;
  prev : ptr;
  val : deque_val_type
}.

(** [struct deque_struct { struct node_struct *head, *tail; }] *)
Record deque_struct := {
  head : ptr;
  tail : ptr
}.

(** What a live heap block holds: nothing yet (fresh from [malloc]), a deque
    header, or a node. *)
Inductive object :=
| Uninit
| Deque (ds : deque_struct)
| Node (n : node_struct).

(** The memory: the live heap blocks.  A freed block is no longer in it. *)
Abbreviation mem := (gmap positive object).

#[global] Instance node_struct_eq_dec : EqDecision node_struct.
Proof. solve_decision. Defined.
#[global] Instance deque_struct_eq_dec : EqDecision deque_struct.
Proof. solve_decision. Defined.
#[global] Instance object_eq_dec : EqDecision object.
Proof. solve_decision. Defined.

(** ** The allocator

    [malloc] belongs to the C library, not to the program.  It is taken as
    any function that, looking at the live blocks, either fails ([NULL]) or
    hands out the address of a block that is not live.  An address that has
    been freed may be handed out again.  Every statement below is proved
    for all such functions. *)
Record allocator := {
  alloc : mem → ptr;
  alloc_fresh : ∀ m a, alloc m = Some a → m !! a = None
}.

(** ** Outcomes and the memory monad

    A call returns, stops at a failed [assert], or attempts an access that
    C leaves undefined.  Each outcome carries a memory: the one the call
    returns with, or the one in which it stops.  For [Undefined] this is
    the memory at the offending access, that is, everything the call has
    written before it; what happens from there on C does not say. *)

Inductive outcome (A : Type) :=
| Returns (a : A) (m : mem)   (* normal return, with the memory it leaves *)
| Aborted (m : mem)           (* [assert] failed: the process aborts in [m] *)
| Undefined (m : mem).        (* undefined behaviour, reached in memory [m] *)
Arguments Returns {A} a m.
Arguments Aborted {A} m.
Arguments Undefined {A} m.

Definition M (A : Type) := mem → outcome A.

Definition ret {A} (a : A) : M A := λ m, Returns a m.

Definition bind {A B} (c : M A) (k : A → M B) : M B := λ m,
  match c m with
  | Returns a m' => k a m'
  | Aborted m' => Aborted m'
  | Undefined m' => Undefined m'
  end.

(** The monad is used through stdpp's notations: [x ← c; k] runs [c], names
    its result [x] and continues with [k]; [c;; k] drops the result. *)
#[global] Instance M_ret : MRet M := @ret.
#[global] Instance M_bind : MBind M := λ A B k c, bind c k.

(** [assert(b)], compiled without [NDEBUG]: a false [b] aborts the process. *)
Definition assert (b : bool) : M unit := λ m,
  if b then Returns tt m else Aborted m.

(** [free(p)]: no effect on [NULL], releases a live block, undefined on
    anything else. *)
Definition free (p : ptr) : M unit := λ m,
  match p with
  | None => Returns tt m
  | Some a => match m !! a with
              | Some _ => Returns tt (delete a m)
              | None => Undefined m
              end
  end.

(** Reading a whole struct through a pointer. *)
Definition load_deque (d : ptr) : M deque_struct := λ m,
  match d with
  | Some a => match m !! a with
              | Some (Deque ds) => Returns ds m
              | _ => Undefined m
              end
  | None => Undefined m
  end.

Definition load_node (n : ptr) : M node_struct := λ m,
  match n with
  | Some a => match m !! a with
              | Some (Node x) => Returns x m
              | _ => Undefined m
              end
  | None => Undefined m
  end.

(** Writing a whole struct into a live block. *)
Definition store (p : ptr) (o : object) : M unit := λ m,
  match p with
  | Some a => match m !! a with
              | Some _ => Returns tt (<[a := o]> m)
              | None => Undefined m
              end
  | None => Undefined m
  end.

(** Field accesses [d->head], [d->tail], [n->next], [n->prev], [n->val]. *)
Definition get_head (d : ptr) : M ptr := ds ← load_deque d; ret (head ds).
Definition get_tail (d : ptr) : M ptr := ds ← load_deque d; ret (tail ds).
Definition get_next (n : ptr) : M ptr := x ← load_node n; ret (next x).
Definition get_prev (n : ptr) : M ptr := x ← load_node n; ret (prev x).
Definition get_val (n : ptr) : M deque_val_type := x ← load_node n; ret (val x).

(** Field assignments [d->head = p], [d->tail = p], [n->next = p],
    [n->prev = p] on an initialised struct. *)
Definition set_head (d p : ptr) : M unit :=
  ds ← load_deque d; store d (Deque {| head := p; tail := tail ds |}).
Definition set_tail (d p : ptr) : M unit :=
  ds ← load_deque d; store d (Deque {| head := head ds; tail := p |}).
Definition set_next (n p : ptr) : M unit :=
  x ← load_node n; store n (Node {| next := p; prev := prev x; val := val x |}).
Definition set_prev (n p : ptr) : M unit :=
  x ← load_node n; store n (Node {| next := next x; prev := p; val := val x |}).

(** ** The operations of [deque.c] *)

Section Deque.
Variable A : allocator.

(** [malloc(size)]: the block handed out becomes live and uninitialised. *)
Definition malloc : M ptr := λ m,
  match alloc A m with
  | Some a => Returns (Some a) (<[a := Uninit]> m)
  | None => Returns None m
  end.

(** <<
    deque_type *d = malloc(sizeof(deque_type));
    if (d != NULL) d->head = d->tail = NULL;
    return d;
    >> *)
Definition deque_alloc : M ptr :=
  d ← malloc;
  (if bool_decide (d ≠ None)
   then store d (Deque {| head := None; tail := None |})
   else ret tt);;
  ret d.

(** <<
    struct node_struct *n = malloc(sizeof(struct node_struct));
    assert(n != NULL);
    n->val = v;  n->next = d->head;  n->prev = NULL;
    if (d->tail == NULL) { d->head = d->tail = n; }
    else { d->head->prev = n;  d->head = n; }
    >>
    The three assignments that fill in the fresh node are one [store]. *)
Definition deque_push_front (d : ptr) (v : deque_val_type) : M unit :=
  n ← malloc;
  assert (bool_decide (n ≠ None));;
  h ← get_head d;
  store n (Node {| next := h; prev := None; val := v |});;
  t ← get_tail d;
  if bool_decide (t = None) then
    set_tail d n;; set_head d n
  else
    h ← get_head d;
    set_prev h n;;
    set_head d n.

(** <<
    struct node_struct *n = malloc(sizeof(struct node_struct));
    assert(n != NULL);
    n->val = v;  n->prev = d->tail;  n->next = NULL;
    if (d->head == NULL) { d->head = d->tail = n; }
    else { d->tail->next = n;  d->tail = n; }
    >> *)
Definition deque_push_back (d : ptr) (v : deque_val_type) : M unit :=
  n ← malloc;
  assert (bool_decide (n ≠ None));;
  t ← get_tail d;
  store n (Node {| next := None; prev := t; val := v |});;
  h ← get_head d;
  if bool_decide (h = None) then
    set_tail d n;; set_head d n
  else
    t ← get_tail d;
    set_next t n;;
    set_tail d n.
End Deque.

(** [free(d);] *)
Definition deque_free (d : ptr) : M unit := free d.

(** [return d->head == NULL;] *)
Definition deque_is_empty (d : ptr) : M bool :=
  h ← get_head d; ret (bool_decide (h = None)).

(** <<
    deque_val_type v = d->head->val;
    struct node_struct *n = d->head;
    if (d->head == d->tail) d->head = d->tail = NULL;
    else d->head = n->next;
    free(n);
    return v;
    >> *)
Definition deque_pop_front (d : ptr) : M deque_val_type :=
  h ← get_head d;
  v ← get_val h;
  n ← get_head d;
  h ← get_head d;
  t ← get_tail d;
  (if bool_decide (h = t) then
     set_tail d None;; set_head d None
   else
     nx ← get_next n; set_head d nx);;
  free n;;
  ret v.

(** <<
    deque_val_type v = d->tail->val;
    struct node_struct *n = d->tail;
    if (d->head == d->tail) d->head = d->tail = NULL;
    else d->tail = n->prev;
    free(n);
    return v;
    >> *)
Definition deque_pop_back (d : ptr) : M deque_val_type :=
  t ← get_tail d;
  v ← get_val t;
  n ← get_tail d;
  h ← get_head d;
  t ← get_tail d;
  (if bool_decide (h = t) then
     set_tail d None;; set_head d None
   else
     pv ← get_prev n; set_tail d pv);;
  free n;;
  ret v.

(** [return d->head->val;] *)
Definition deque_peek_front (d : ptr) : M deque_val_type :=
  h ← get_head d; get_val h.

(** [return d->tail->val;] *)
Definition deque_peek_back (d : ptr) : M deque_val_type :=
  t ← get_tail d; get_val t.

(** Two fields no function of [deque.c] ever reads: [d->head->prev] and
    [d->tail->next].  Reading them is how a caller (or a debugger) would
    check the outward links of the two end nodes. *)
Definition head_prev (d : ptr) : M ptr := h ← get_head d; get_prev h.
Definition tail_next (d : ptr) : M ptr := t ← get_tail d; get_next t.

(** ** Allocators to run the code with *)

(** Always hands out an address that no live block has. *)
Definition bump : allocator.
Proof.
  refine {| alloc := λ m, Some (fresh (dom m)) |}.
  intros m a [= <-]. apply not_elem_of_dom, is_fresh.
Defined.

(** An allocator with no memory left: every request fails. *)
Definition exhausted : allocator.
Proof.
  refine {| alloc := λ _, None |}.
  intros m a [=].
Defined.

(** An allocator that serves requests while fewer than [k] blocks are live
    and fails otherwise. *)
Definition bounded (k : nat) : allocator.
Proof.
  refine {| alloc := λ m, if decide (size m < k)%nat
                          then Some (fresh (dom m)) else None |}.
  intros m a H. destruct (decide _); [|done].
  injection H as <-. apply not_elem_of_dom, is_fresh.
Defined.

(** ** Operation sequences *)

(** The operations a caller can apply to a deque it has created, and what
    each gives back. *)
Inductive op :=
| PushFront (v : deque_val_type)
| PushBack (v : deque_val_type)
| PopFront
| PopBack
| PeekFront
| PeekBack
| IsEmpty.

Inductive result :=
| Done
| Value (v : deque_val_type)
| Flag (b : bool).

Definition exec_op (A : allocator) (d : ptr) (o : op) : M result :=
  match o with
  | PushFront v => deque_push_front A d v;; mret Done
  | PushBack v => deque_push_back A d v;; mret Done
  | PopFront => v ← deque_pop_front d; mret (Value v)
  | PopBack => v ← deque_pop_back d; mret (Value v)
  | PeekFront => v ← deque_peek_front d; mret (Value v)
  | PeekBack => v ← deque_peek_back d; mret (Value v)
  | IsEmpty => b ← deque_is_empty d; mret (Flag b)
  end.

(** Runs the calls one after the other and collects what they return. *)
Fixpoint run (A : allocator) (d : ptr) (ops : list op) : M (list result) :=
  match ops with
  | [] => mret []
  | o :: ops' => r ← exec_op A d o; rs ← run A d ops'; mret (r :: rs)
  end.

(** Reads the deque out from the front:
    [while (!deque_is_empty(d)) out.push(deque_pop_front(d));]
    with a bound on the number of rounds. *)
Fixpoint drain (fuel : nat) (d : ptr) : M (list deque_val_type) :=
  match fuel with
  | O => mret []
  | S fuel' =>
      e ← deque_is_empty d;
      if e : bool then mret []
      else v ← deque_pop_front d; vs ← drain fuel' d; mret (v :: vs)
  end.

(** ** The reference model: a list with insertion and removal at both ends *)

Module Ref.
Definition exec_op (o : op) (l : list deque_val_type)
  : option (result * list deque_val_type) :=
  match o with
  | PushFront v => Some (Done, v :: l)
  | PushBack v => Some (Done, l ++ [v])
  | PopFront => match l with
                | [] => None
                | x :: l' => Some (Value x, l')
                end
  | PopBack => match last l with
               | None => None
               | Some x => Some (Value x, removelast l)
               end
  | PeekFront => match l with
                 | [] => None
                 | x :: _ => Some (Value x, l)
                 end
  | PeekBack => match last l with
                | None => None
                | Some x => Some (Value x, l)
                end
  | IsEmpty => Some (Flag (bool_decide (l = [])), l)
  end.

Fixpoint run (ops : list op) (l : list deque_val_type)
  : option (list result * list deque_val_type) :=
  match ops with
  | [] => Some ([], l)
  | o :: ops' =>
      match exec_op o l with
      | None => None
      | Some (r, l') =>
          match run ops' l' with
          | None => None
          | Some (rs, l'') => Some (r :: rs, l'')
          end
      end
  end.
End Ref.

(** ** The representation invariant

    [cells] lists, front to back, the address and the value of every node
    of the deque at [d].  The header points at the first and the last cell,
    every cell is a live node holding its value, and neighbouring cells are
    linked in both directions.  Nothing is said of the [prev] field of the
    first node nor of the [next] field of the last one. *)
Record deque_repr (m : mem) (d : ptr) (cells : list (addr * deque_val_type)) : Prop := {
  repr_header : ∃ da, d = Some da ∧
    m !! da = Some (Deque {| head := hd_error cells.*1; tail := last cells.*1 |});
  repr_nodup : NoDup cells.*1;
  repr_nodes : ∀ i a v, cells !! i = Some (a, v) →
    ∃ n, m !! a = Some (Node n) ∧ val n = v ∧
         (∀ b, cells.*1 !! S i = Some b → next n = Some b) ∧
         (∀ j b, i = S j → cells.*1 !! j = Some b → prev n = Some b)
}.

(** The deque at [d] holds the values [l], front to back. *)
Definition models (m : mem) (d : ptr) (l : list deque_val_type) : Prop :=
  ∃ cells, cells.*2 = l ∧ deque_repr m d cells.

(** A call went as far as the allocator let it: it returned with a result
    and a memory satisfying [P], or it stopped at the [assert] because
    [malloc] had no block to give; it never ran into undefined behaviour. *)
Definition unless_oom {T} (A : allocator) (o : outcome T) (P : T → mem → Prop) : Prop :=
  match o with
  | Returns a m => P a m
  | Aborted m => alloc A m = None
  | Undefined _ => False
  end.

(** The call came back to its caller with a result: it neither aborted the
    process nor ran into undefined behaviour. *)
Definition returns_to_caller {T} (o : outcome T) : Prop := ∃ a m, o = Returns a m.

(** The memory in which a call ends: the one it returns with, or the one in
    which it stops at a failed [assert] or at an undefined access. *)
Definition memory_after {T} (o : outcome T) : option mem :=
  match o with
  | Returns _ m => Some m
  | Aborted m => Some m
  | Undefined m => Some m
  end.

(** The body of [deque_pop_front] after its first line (lines 61 to 67 of
    [deque.c]), with [v] the value the first line has read. *)
Definition pop_front_rest (d : ptr) (v : deque_val_type) : M deque_val_type :=
  n ← get_head d;
  h ← get_head d;
  t ← get_tail d;
  (if bool_decide (h = t) then
     set_tail d None;; set_head d None
   else
     nx ← get_next n; set_head d nx);;
  free n;;
  ret v.

(** The body of [deque_pop_back] after its first line (lines 72 to 78). *)
Definition pop_back_rest (d : ptr) (v : deque_val_type) : M deque_val_type :=
  n ← get_tail d;
  h ← get_head d;
  t ← get_tail d;
  (if bool_decide (h = t) then
     set_tail d None;; set_head d None
   else
     pv ← get_prev n; set_tail d pv);;
  free n;;
  ret v.

(** No [assert] can fail in [c]. *)
Definition never_aborts {T} (c : M T) : Prop := ∀ m m', c m ≠ Aborted m'.

(** ** Sample runs

    [mem_after ops] is the memory left by [deque_alloc] followed by [ops],
    started in the empty memory with the [bump] allocator; the deque then
    sits at [fresh_d]. *)
Definition fresh_d : ptr := Some 1%positive.

Definition mem_after (ops : list op) : mem :=
  match (d ← deque_alloc bump; run bump d ops) ∅ with
  | Returns _ m => m
  | _ => ∅
  end.

Definition ops0 : list op :=
  [PushBack 1; PushFront 0; PeekBack; PopBack; IsEmpty; PushBack 5].

(** ** Ownership

    [owns m0 m d cells]: seen from the memory [m0] in which the deque was
    created, the header and the nodes are blocks that were not live, and
    every other block of [m] is as in [m0]. *)
Definition owns (m0 m : mem) (d : ptr) (cells : list (addr * deque_val_type)) : Prop :=
  (∀ k, Some k = d ∨ k ∈ cells.*1 → m0 !! k = None) ∧
  (∀ k, Some k ≠ d → k ∉ cells.*1 → m !! k = m0 !! k).

(** The memory holds two separate deques, [d1] with the values [l1] and
    [d2] with the values [l2]: the headers differ and no node belongs to
    both. *)
Definition both_hold (m : mem) (d1 : ptr) (l1 : list deque_val_type)
    (d2 : ptr) (l2 : list deque_val_type) : Prop :=
  ∃ c1 c2, c1.*2 = l1 ∧ c2.*2 = l2 ∧
    deque_repr m d1 c1 ∧ deque_repr m d2 c2 ∧
    d1 ≠ d2 ∧ (∀ a, a ∈ c1.*1 → a ∉ c2.*1).

(** A sample memory with two deques: [fresh_d] holding the value 1, and a
    second, empty one created after it, at [second_d]. *)
Definition second_d : ptr := Some 3%positive.

Definition mem_two : mem :=
  match deque_alloc bump (mem_after [PushBack 1]) with
  | Returns _ m => m
  | _ => ∅
  end.

Definition mem_two_after (d : ptr) (ops : list op) : mem :=
  match run bump d ops mem_two with
  | Returns _ m => m
  | _ => ∅
  end.

(** ** Running the primitives *)

Section Primitives.
Context {T U : Type}.

Lemma bind_returns (c : M T) (k : T → M U) m a m' :
  c m = Returns a m' → (c ≫= k) m = k a m'.
Proof. intros H. unfold mbind, M_bind, bind. by rewrite H. Qed.

Lemma bind_undefined (c : M T) (k : T → M U) m m' :
  c m = Undefined m' → (c ≫= k) m = Undefined m'.
Proof. intros H. unfold mbind, M_bind, bind. by rewrite H. Qed.

Lemma bind_aborted (c : M T) (k : T → M U) m m' :
  c m = Aborted m' → (c ≫= k) m = Aborted m'.
Proof. intros H. unfold mbind, M_bind, bind. by rewrite H. Qed.
End Primitives.

(** ** Proof automation *)

(** Lookups in a memory built by [insert] and [delete]. *)
Ltac lookup :=
  repeat first
    [ rewrite lookup_insert_eq
    | rewrite lookup_insert_ne by congruence
    | rewrite lookup_delete_ne by congruence ];
  try done; eauto.

(** Runs the first call of a sequence with the lemma [lem] about it. *)
Ltac step lem :=
  erewrite bind_returns; [| eapply lem; lookup ]; cbn beta.

(** What a pop leaves untouched: everything but the header and the node it
    frees. *)
Ltac pop_frame :=
  split; [apply lookup_delete_eq|];
  intros k ? ?; rewrite lookup_delete_ne by done;
  repeat (rewrite lookup_insert_ne by congruence); done.

Lemma get_head_returns m a ds :
  m !! a = Some (Deque ds) → get_head (Some a) m = Returns (head ds) m.
Proof. intros H. unfold get_head, load_deque, mbind, M_bind, bind. by rewrite H. Qed.

Lemma get_tail_returns m a ds :
  m !! a = Some (Deque ds) → get_tail (Some a) m = Returns (tail ds) m.
Proof. intros H. unfold get_tail, load_deque, mbind, M_bind, bind. by rewrite H. Qed.

Lemma set_head_returns m a ds p :
  m !! a = Some (Deque ds) →
  set_head (Some a) p m = Returns tt (<[a := Deque {| head := p; tail := tail ds |}]> m).
Proof. intros H. unfold set_head, load_deque, store, mbind, M_bind, bind. by rewrite H, H. Qed.

Lemma set_tail_returns m a ds p :
  m !! a = Some (Deque ds) →
  set_tail (Some a) p m = Returns tt (<[a := Deque {| head := head ds; tail := p |}]> m).
Proof. intros H. unfold set_tail, load_deque, store, mbind, M_bind, bind. by rewrite H, H. Qed.

Lemma get_next_returns m a n :
  m !! a = Some (Node n) → get_next (Some a) m = Returns (next n) m.
Proof. intros H. unfold get_next, load_node, mbind, M_bind, bind. by rewrite H. Qed.

Lemma get_prev_returns m a n :
  m !! a = Some (Node n) → get_prev (Some a) m = Returns (prev n) m.
Proof. intros H. unfold get_prev, load_node, mbind, M_bind, bind. by rewrite H. Qed.

Lemma get_val_returns m a n :
  m !! a = Some (Node n) → get_val (Some a) m = Returns (val n) m.
Proof. intros H. unfold get_val, load_node, mbind, M_bind, bind. by rewrite H. Qed.

Lemma set_next_returns m a n p :
  m !! a = Some (Node n) →
  set_next (Some a) p m
  = Returns tt (<[a := Node {| next := p; prev := prev n; val := val n |}]> m).
Proof. intros H. unfold set_next, load_node, store, mbind, M_bind, bind. by rewrite H, H. Qed.

Lemma set_prev_returns m a n p :
  m !! a = Some (Node n) →
  set_prev (Some a) p m
  = Returns tt (<[a := Node {| next := next n; prev := p; val := val n |}]> m).
Proof. intros H. unfold set_prev, load_node, store, mbind, M_bind, bind. by rewrite H, H. Qed.

Lemma store_returns m a o o' :
  m !! a = Some o' → store (Some a) o m = Returns tt (<[a := o]> m).
Proof. intros H. unfold store. by rewrite H. Qed.

Lemma free_returns m a o :
  m !! a = Some o → free (Some a) m = Returns tt (delete a m).
Proof. intros H. unfold free. by rewrite H. Qed.

(** ** What the invariant gives, and how each operation moves it *)

Lemma repr_cell m d cells i a v :
  deque_repr m d cells → cells !! i = Some (a, v) →
  ∃ n, m !! a = Some (Node n) ∧ val n = v.
Proof. intros H Hi. destruct (repr_nodes _ _ _ H _ _ _ Hi) as (n & ? & ? & _). eauto. Qed.

Lemma repr_addr_live m d cells a :
  deque_repr m d cells → a ∈ cells.*1 → ∃ n, m !! a = Some (Node n).
Proof.
  intros H Ha. apply list_elem_of_fmap in Ha as ([a' v] & -> & Hin).
  apply list_elem_of_lookup in Hin as [i Hi].
  destruct (repr_cell _ _ _ _ _ _ H Hi) as (n & ? & _). eauto.
Qed.

Lemma malloc_returns A m a :
  alloc A m = Some a → malloc A m = Returns (Some a) (<[a := Uninit]> m).
Proof. intros H. unfold malloc. by rewrite H. Qed.

Lemma malloc_fails A m :
  alloc A m = None → malloc A m = Returns None m.
Proof. intros H. unfold malloc. by rewrite H. Qed.


Lemma push_front_sim A m d cells v :
  deque_repr m d cells →
  unless_oom A (deque_push_front A d v m)
    (λ _ m', ∃ n, m !! n = None ∧ deque_repr m' d ((n, v) :: cells)).
Proof.
  intros H. pose proof H as [(da & -> & Hd) Hnd Hn].
  unfold deque_push_front.
  destruct (alloc A m) as [n|] eqn:Ha.
  2:{ rewrite (bind_returns _ _ _ _ _ (malloc_fails _ _ Ha)). simpl. done. }
  rewrite (bind_returns _ _ _ _ _ (malloc_returns _ _ _ Ha)).
  pose proof (alloc_fresh _ _ _ Ha) as Hfresh.
  assert (n ≠ da) as Hnda by congruence.
  assert (n ∉ cells.*1) as Hncells.
  { intros Hin. destruct (repr_addr_live _ _ _ _ H Hin) as [? ?]. congruence. }
  rewrite bool_decide_true by done.
  erewrite bind_returns by reflexivity.
  step get_head_returns. cbn [head].
  step store_returns.
  step get_tail_returns. cbn [tail].
  destruct cells as [|[h w] cells]. 
  - cbn. step set_tail_returns. erewrite set_head_returns by lookup. cbn. 
    exists n. split; [done|]. split.
    + exists da. split; [done|]. lookup.
    + cbn. apply NoDup_singleton.
    + intros [|i] a v' Hi; [|done]. injection Hi as <- <-.
      eexists. split; [lookup|]. cbn. done.
  - assert (is_Some (last ((h, w) :: cells).*1)) as [t Ht] by (by apply last_is_Some).
    rewrite Ht. rewrite bool_decide_false by done.
    step get_head_returns. cbn [head hd_error fmap list_fmap fst].
    destruct (Hn 0%nat h w eq_refl) as (hn & Hh & Hhv & Hhnext & _).
    assert (h ≠ da) by congruence.
    assert (h ≠ n) by congruence.
    step set_prev_returns.
    erewrite set_head_returns by lookup. cbn.
    exists n. split; [done|]. split.
    + exists da. split; [done|]. lookup.
    + change (NoDup (n :: ((h, w) :: cells).*1)). by apply NoDup_cons.
    + intros [|i] a v' Hi.
      * injection Hi as <- <-. eexists. split; [lookup|]. cbn.
        split; [done|]. split; [|done]. by intros b [= <-].
      * cbn in Hi. destruct (Hn i a v' Hi) as (x & Hx & Hxv & Hxn & Hxp).
        assert (a ≠ da) by congruence.
        assert (a ≠ n) by congruence.
        destruct i as [|i].
        -- injection Hi as <- <-. eexists. split; [lookup|]. cbn.
           split; [done|]. split; [done|]. by intros j b [= <-] [= <-].
        -- assert (a ≠ h).
           { intros ->. apply NoDup_cons_1_1 in Hnd. apply Hnd.
             change (h ∈ cells.*1). apply list_elem_of_fmap.
             exists (h, v'). split; [done|]. by eapply list_elem_of_lookup_2. }
           exists x. split; [lookup|]. split; [done|]. split; [done|].
           intros j b [= <-]. by apply Hxp.
Qed.


Lemma repr_addr_inj m d cells i j a :
  deque_repr m d cells → cells.*1 !! i = Some a → cells.*1 !! j = Some a → i = j.
Proof. intros H. apply NoDup_lookup, H. Qed.

Lemma lookup_fst {X Y} (l : list (X * Y)) i a v :
  l !! i = Some (a, v) → l.*1 !! i = Some a.
Proof. intros H. by rewrite list_lookup_fmap, H. Qed.

Lemma fst_snoc {X Y} (l : list (X * Y)) a v : (l ++ [(a, v)]).*1 = l.*1 ++ [a].
Proof. by rewrite fmap_app. Qed.

Lemma push_back_sim A m d cells v :
  deque_repr m d cells →
  unless_oom A (deque_push_back A d v m)
    (λ _ m', ∃ n, m !! n = None ∧ deque_repr m' d (cells ++ [(n, v)])).
Proof.
  intros H. pose proof H as [(da & -> & Hd) Hnd Hn].
  unfold deque_push_back.
  destruct (alloc A m) as [n|] eqn:Ha.
  2:{ rewrite (bind_returns _ _ _ _ _ (malloc_fails _ _ Ha)). simpl. done. }
  rewrite (bind_returns _ _ _ _ _ (malloc_returns _ _ _ Ha)).
  pose proof (alloc_fresh _ _ _ Ha) as Hfresh.
  assert (n ≠ da) as Hnda by congruence.
  assert (n ∉ cells.*1) as Hncells.
  { intros Hin. destruct (repr_addr_live _ _ _ _ H Hin) as [? ?]. congruence. }
  rewrite bool_decide_true by done.
  erewrite bind_returns by reflexivity.
  step get_tail_returns. cbn [tail].
  step store_returns.
  step get_head_returns. cbn [head].
  destruct (decide (cells = [])) as [->|Hne].
  - cbn. step set_tail_returns. erewrite set_head_returns by lookup. cbn.
    exists n. split; [done|]. split.
    + exists da. split; [done|]. lookup.
    + cbn. apply NoDup_singleton.
    + intros [|i] a v' Hi; [|done]. injection Hi as <- <-.
      eexists. split; [lookup|]. cbn. done.
  - assert (is_Some (hd_error cells.*1)) as [h Hh].
    { apply head_is_Some. by destruct cells. }
    assert (is_Some (last cells.*1)) as [t Ht].
    { apply last_is_Some. by destruct cells. }
    rewrite Hh, Ht in *. rewrite bool_decide_false by done.
    step get_tail_returns. cbn [tail].
    pose proof Ht as Hti. rewrite last_lookup, length_fmap in Hti.
    destruct (cells !! pred (length cells)) as [[t' w]|] eqn:Htw;
      [|by rewrite list_lookup_fmap, Htw in Hti].
    assert (t' = t) as -> by (rewrite list_lookup_fmap, Htw in Hti; by injection Hti).
    destruct (Hn _ _ _ Htw) as (tn & Htn & Htv & _ & Htp).
    assert (t ≠ da) by congruence.
    assert (t ≠ n) by congruence.
    step set_next_returns.
    erewrite set_tail_returns by lookup. cbn.
    exists n. split; [done|]. split.
    + exists da. split; [done|]. lookup. rewrite fst_snoc, last_snoc, head_app, Hh. done.
    + rewrite fst_snoc. apply NoDup_app. split; [done|]. split; [|apply NoDup_singleton].
      intros x Hx Hx'. apply list_elem_of_singleton in Hx'. by subst.
    + intros i a v' Hi. rewrite fst_snoc.
      apply lookup_snoc_Some in Hi as [[Hlt Hi] | [-> [= <- <-]]].
      * destruct (Hn _ _ _ Hi) as (x & Hx & Hxv & Hxn & Hxp).
        assert (a ≠ da) by congruence.
        assert (a ≠ n) by congruence.
        destruct (decide (a = t)) as [->|Hat].
        -- assert (i = pred (length cells)) as Hieq.
           { eapply repr_addr_inj; [done|by eapply lookup_fst..]. }
           subst i.
           assert (x = tn) as -> by congruence.
           eexists. split; [lookup|]. cbn. split; [done|]. split.
           ++ intros b Hb. apply lookup_snoc_Some in Hb as [[Hb _]|[_ ->]]; [|done].
              rewrite length_fmap in Hb. lia.
           ++ intros j b Hj Hb. eapply Hxp; [exact Hj|].
              apply lookup_snoc_Some in Hb as [[_ Hb]|[Hb _]]; [done|].
              rewrite length_fmap in Hb. lia.
        -- exists x. split; [lookup|]. split; [done|]. split.
           ++ intros b Hb. apply Hxn.
              apply lookup_snoc_Some in Hb as [[_ Hb]|[Hb ->]]; [done|].
              rewrite length_fmap in Hb. exfalso. apply Hat. 
              assert (i = pred (length cells)) as Hieq by lia. subst i. congruence.
           ++ intros j b -> Hb. eapply Hxp; [done|].
              apply lookup_snoc_Some in Hb as [[_ Hb]|[Hb _]]; [done|].
              rewrite length_fmap in Hb. lia.
      * eexists. split; [lookup|]. cbn. split; [done|]. split.
        -- intros b Hb. apply lookup_lt_Some in Hb.
           rewrite length_app, length_fmap in Hb. cbn in Hb. lia.
        -- intros j b Hj Hb. 
           apply lookup_snoc_Some in Hb as [[_ Hb]|[Hb _]].
           ++ assert (j = pred (length cells)) as Hjeq by lia. subst j.
              rewrite list_lookup_fmap, Htw in Hb. by injection Hb as <-.
           ++ rewrite length_fmap in Hb. lia.
Qed.

Lemma repr_nil_inv m d :
  deque_repr m d [] → ∃ da, d = Some da ∧ m !! da = Some (Deque {| head := None; tail := None |}).
Proof. intros [Hd _ _]. exact Hd. Qed.

Lemma is_empty_sim m d cells :
  deque_repr m d cells →
  deque_is_empty d m = Returns (bool_decide (cells.*2 = [])) m.
Proof.
  intros [(da & -> & Hd) _ _]. unfold deque_is_empty.
  step get_head_returns. cbn. unfold ret. f_equal.
  destruct cells; done.
Qed.

Lemma peek_front_sim m d a v cells :
  deque_repr m d ((a, v) :: cells) → deque_peek_front d m = Returns v m.
Proof.
  intros H. pose proof H as [(da & -> & Hd) _ Hn]. unfold deque_peek_front.
  step get_head_returns. cbn.
  destruct (Hn 0%nat a v eq_refl) as (n & Ha & <- & _).
  by apply get_val_returns.
Qed.

Lemma peek_back_sim m d a v cells :
  deque_repr m d (cells ++ [(a, v)]) → deque_peek_back d m = Returns v m.
Proof.
  intros H. pose proof H as [(da & -> & Hd) _ Hn]. unfold deque_peek_back.
  step get_tail_returns. cbn. rewrite fst_snoc, last_snoc.
  destruct (Hn (length cells) a v) as (n & Ha & <- & _).
  { by apply list_lookup_middle. }
  by apply get_val_returns.
Qed.

Lemma peek_front_empty m d : deque_repr m d [] → deque_peek_front d m = Undefined m.
Proof.
  intros (da & -> & Hd)%repr_nil_inv. unfold deque_peek_front.
  by step get_head_returns.
Qed.

Lemma peek_back_empty m d : deque_repr m d [] → deque_peek_back d m = Undefined m.
Proof.
  intros (da & -> & Hd)%repr_nil_inv. unfold deque_peek_back.
  by step get_tail_returns.
Qed.

Lemma pop_front_empty m d : deque_repr m d [] → deque_pop_front d m = Undefined m.
Proof.
  intros (da & -> & Hd)%repr_nil_inv. unfold deque_pop_front.
  by step get_head_returns.
Qed.

Lemma pop_back_empty m d : deque_repr m d [] → deque_pop_back d m = Undefined m.
Proof.
  intros (da & -> & Hd)%repr_nil_inv. unfold deque_pop_back.
  by step get_tail_returns.
Qed.

Lemma pop_front_sim m d a v cells :
  deque_repr m d ((a, v) :: cells) →
  ∃ m', deque_pop_front d m = Returns v m' ∧ deque_repr m' d cells ∧
        m' !! a = None ∧ (∀ k, k ≠ a → Some k ≠ d → m' !! k = m !! k).
Proof.
  intros H. pose proof H as [(da & -> & Hd) Hnd Hn]. unfold deque_pop_front.
  destruct (Hn 0%nat a v eq_refl) as (n & Ha & Hv & Hnext & _).
  assert (a ≠ da) by congruence.
  assert (((a, v) :: cells).*1 = a :: cells.*1) as Hfst by done.
  rewrite Hfst in Hd, Hnd. cbn [hd_error] in Hd.
  step get_head_returns. cbn [head].
  step get_val_returns.
  step get_head_returns. step get_head_returns. step get_tail_returns. cbn [head tail].
  apply NoDup_cons in Hnd as [Hnotin Hnd].
  destruct cells as [|[b w] cells].
  - cbn. rewrite bool_decide_true by done.
    erewrite (bind_returns (set_tail _ _ ≫= _)).
    2:{ step set_tail_returns. erewrite set_head_returns by lookup. done. }
    cbn. step free_returns. unfold ret. subst v. eexists. split; [reflexivity|]. split; [split|pop_frame].
    + exists da. split; [done|]. lookup.
    + constructor.
    + done.
  - assert (last (a :: ((b, w) :: cells).*1) ≠ Some a) as Hlast.
    { rewrite last_cons. destruct (last _) as [x|] eqn:Hl; [|by apply last_None in Hl].
      intros [= ->]. apply Hnotin. by eapply last_Some_elem_of. }
    rewrite bool_decide_false by congruence.
    erewrite (bind_returns (get_next _ ≫= _)).
    2:{ step get_next_returns. erewrite set_head_returns by lookup. done. }
    cbn. step free_returns. unfold ret. subst v. eexists. split; [reflexivity|]. split; [split|pop_frame].
    + exists da. split; [done|]. lookup. rewrite (Hnext b) by done. done.
    + done.
    + intros i a' v' Hi. destruct (Hn (S i) a' v' Hi) as (x & Hx & Hxv & Hxn & Hxp).
      assert (a' ≠ da) by congruence.
      assert (a' ≠ a).
      { intros ->. apply Hnotin. eapply list_elem_of_lookup_2. by eapply lookup_fst. }
      exists x. split; [lookup|]. split; [done|]. split; [done|].
      intros j c -> Hc. by eapply Hxp.
Qed.

Lemma pop_back_sim m d a v cells :
  deque_repr m d (cells ++ [(a, v)]) →
  ∃ m', deque_pop_back d m = Returns v m' ∧ deque_repr m' d cells ∧
        m' !! a = None ∧ (∀ k, k ≠ a → Some k ≠ d → m' !! k = m !! k).
Proof.
  intros H. pose proof H as [(da & -> & Hd) Hnd Hn]. unfold deque_pop_back.
  destruct (Hn (length cells) a v) as (n & Ha & Hv & _ & Hprev).
  { by apply list_lookup_middle. }
  assert (a ≠ da) by congruence.
  rewrite fst_snoc in Hd, Hnd, Hprev. rewrite last_snoc in Hd.
  apply NoDup_app in Hnd as (Hnd & Hnotin & _).
  assert (a ∉ cells.*1) as Hnotin'.
  { intros Hin. apply (Hnotin _ Hin). by apply list_elem_of_singleton. }
  step get_tail_returns. cbn [tail].
  step get_val_returns.
  step get_tail_returns. step get_head_returns. step get_tail_returns. cbn [head tail].
  destruct (decide (cells = [])) as [->|Hne].
  - cbn. rewrite bool_decide_true by done.
    erewrite (bind_returns (set_tail _ _ ≫= _)).
    2:{ step set_tail_returns. erewrite set_head_returns by lookup. done. }
    cbn. step free_returns. unfold ret. subst v. eexists. split; [reflexivity|]. split; [split|pop_frame].
    + exists da. split; [done|]. lookup.
    + constructor.
    + done.
  - assert (is_Some (hd_error cells.*1)) as [h Hh].
    { apply head_is_Some. by destruct cells. }
    assert (is_Some (last cells.*1)) as [t Ht].
    { apply last_is_Some. by destruct cells. }
    assert (h ≠ a).
    { intros ->. apply Hnotin'. by eapply head_Some_elem_of. }
    rewrite head_app, Hh in *.
    rewrite bool_decide_false by congruence.
    assert (prev n = Some t) as Hpt.
    { apply (Hprev (pred (length cells))).
      - destruct cells; [done|]. cbn. lia.
      - rewrite lookup_app_l.
        + by rewrite <-(length_fmap fst), <-last_lookup.
        + rewrite length_fmap. destruct cells; [done|]. cbn. lia. }
    erewrite (bind_returns (get_prev _ ≫= _)).
    2:{ step get_prev_returns. erewrite set_tail_returns by lookup. done. }
    cbn. step free_returns. unfold ret. subst v. eexists. split; [reflexivity|]. split; [split|pop_frame].
    + exists da. split; [done|]. lookup. by rewrite Hh, Ht, Hpt.
    + done.
    + intros i a' v' Hi.
      destruct (Hn i a' v') as (x & Hx & Hxv & Hxn & Hxp).
      { by apply lookup_app_l_Some. }
      assert (a' ≠ da) by congruence.
      assert (a' ≠ a).
      { intros ->. apply Hnotin'. eapply list_elem_of_lookup_2. by eapply lookup_fst. }
      exists x. split; [lookup|]. split; [done|]. split.
      * intros c Hc. apply Hxn. rewrite fst_snoc. by apply lookup_app_l_Some.
      * intros j c -> Hc. eapply Hxp; [done|]. rewrite fst_snoc. by apply lookup_app_l_Some.
Qed.

(** ** Simulation of the reference model *)

Lemma deque_alloc_spec A m :
  match alloc A m with
  | Some a => deque_alloc A m
              = Returns (Some a) (<[a := Deque {| head := None; tail := None |}]> (<[a := Uninit]> m))
  | None => deque_alloc A m = Returns None m
  end.
Proof.
  unfold deque_alloc. destruct (alloc A m) as [a|] eqn:Ha.
  - rewrite (bind_returns _ _ _ _ _ (malloc_returns _ _ _ Ha)).
    rewrite bool_decide_true by done. step store_returns. done.
  - rewrite (bind_returns _ _ _ _ _ (malloc_fails _ _ Ha)). done.
Qed.

Lemma deque_alloc_repr A m0 d m1 :
  deque_alloc A m0 = Returns (Some d) m1 → deque_repr m1 (Some d) [].
Proof.
  intros H. pose proof (deque_alloc_spec A m0) as Hs.
  destruct (alloc A m0) as [a|]; rewrite Hs in H; [|done].
  injection H as <- <-. split.
  - exists a. split; [done|]. lookup.
  - constructor.
  - done.
Qed.

(** [deque_free] releases the header and nothing else: every node of the
    deque stays live, and no pointer to it is left. *)
Lemma deque_free_leaks m d cells :
  deque_repr m d cells →
  ∃ m', deque_free d m = Returns tt m' ∧
        (∀ da, d = Some da → m' !! da = None) ∧
        (∀ a, a ∈ cells.*1 → m' !! a = m !! a).
Proof.
  intros H. pose proof H as [(da & -> & Hd) _ _]. unfold deque_free.
  erewrite free_returns by done. eexists. split; [done|]. split.
  - intros ? [= <-]. apply lookup_delete_eq.
  - intros a Ha. destruct (repr_addr_live _ _ _ _ H Ha) as [n Hn].
    apply lookup_delete_ne. congruence.
Qed.

Lemma deque_alloc_models A m0 d m1 :
  deque_alloc A m0 = Returns (Some d) m1 → models m1 (Some d) [].
Proof. intros H. exists []. split; [done|]. by eapply deque_alloc_repr. Qed.

Lemma unless_oom_bind {T U} A (c : M T) (k : T → M U) m (P : T → mem → Prop) (Q : U → mem → Prop) :
  unless_oom A (c m) P →
  (∀ a m', P a m' → unless_oom A (k a m') Q) →
  unless_oom A ((c ≫= k) m) Q.
Proof.
  unfold mbind, M_bind, bind. destruct (c m); simpl; eauto.
Qed.

Lemma unless_oom_mono {T} A (o : outcome T) (P Q : T → mem → Prop) :
  unless_oom A o P → (∀ a m, P a m → Q a m) → unless_oom A o Q.
Proof. destruct o; simpl; eauto. Qed.

Lemma unless_oom_total {T} A (o : outcome T) (P : T → mem → Prop) :
  (∀ m, alloc A m ≠ None) → unless_oom A o P → ∃ a m, o = Returns a m ∧ P a m.
Proof.
  intros Htot H. destruct o as [a m|m|]; simpl in H; [eauto| |done].
  by destruct (Htot m).
Qed.

Lemma exec_op_sim A m d l o :
  models m d l →
  match Ref.exec_op o l with
  | Some (r, l') => unless_oom A (exec_op A d o m) (λ r' m', r' = r ∧ models m' d l')
  | None => exec_op A d o m = Undefined m
  end.
Proof.
  intros (cells & <- & H). destruct o as [v|v| | | | |]; cbn [Ref.exec_op exec_op].
  - eapply unless_oom_bind; [by apply push_front_sim|].
    intros [] m' (n & _ & Hm'). simpl. split; [done|]. by exists ((n, v) :: cells).
  - eapply unless_oom_bind; [by apply push_back_sim|].
    intros [] m' (n & _ & Hm'). simpl. split; [done|]. exists (cells ++ [(n, v)]).
    split; [|done]. by rewrite fmap_app.
  - destruct cells as [|[a v] cells]; cbn.
    + apply bind_undefined. by apply pop_front_empty.
    + destruct (pop_front_sim _ _ _ _ _ H) as (m' & Hp & Hm' & _).
      rewrite (bind_returns _ _ _ _ _ Hp). simpl. split; [done|]. by exists cells.
  - destruct cells as [|[a v] cells _] using rev_ind; cbn.
    + apply bind_undefined. by apply pop_back_empty.
    + destruct (pop_back_sim _ _ _ _ _ H) as (m' & Hp & Hm' & _).
      rewrite fmap_app. cbn [fmap list_fmap snd]. rewrite last_snoc, removelast_last.
      rewrite (bind_returns _ _ _ _ _ Hp). simpl. split; [done|]. by exists cells.
  - destruct cells as [|[a v] cells]; cbn.
    + apply bind_undefined. by apply peek_front_empty.
    + rewrite (bind_returns _ _ _ _ _ (peek_front_sim _ _ _ _ _ H)). simpl.
      split; [done|]. by exists ((a, v) :: cells).
  - destruct cells as [|[a v] cells _] using rev_ind; cbn.
    + apply bind_undefined. by apply peek_back_empty.
    + rewrite fmap_app. cbn [fmap list_fmap snd]. rewrite last_snoc.
      rewrite (bind_returns _ _ _ _ _ (peek_back_sim _ _ _ _ _ H)). simpl.
      split; [done|]. exists (cells ++ [(a, v)]). split; [|done]. by rewrite fmap_app.
  - rewrite (bind_returns _ _ _ _ _ (is_empty_sim _ _ _ H)). simpl.
    split; [done|]. by exists cells.
Qed.

Lemma run_sim A ops : ∀ m d l,
  models m d l →
  match Ref.run ops l with
  | Some (rs, l') => unless_oom A (run A d ops m) (λ rs' m', rs' = rs ∧ models m' d l')
  | None => ∀ rs m', run A d ops m ≠ Returns rs m'
  end.
Proof.
  induction ops as [|o ops IH]; intros m d l Hm; cbn [Ref.run run].
  - simpl. done.
  - pose proof (exec_op_sim A m d l o Hm) as Ho.
    destruct (Ref.exec_op o l) as [[r l1]|].
    + destruct (Ref.run ops l1) as [[rs l2]|] eqn:Hr.
      * eapply unless_oom_bind; [exact Ho|]. intros r' m1 [-> Hm1].
        specialize (IH m1 d l1 Hm1). rewrite Hr in IH.
        eapply unless_oom_bind; [exact IH|]. intros rs' m2 [-> Hm2]. simpl. done.
      * intros rs m'. unfold mbind, M_bind, bind.
        destruct (exec_op A d o m) as [r' m1| |]; [|done..].
        destruct Ho as [-> Hm1]. specialize (IH m1 d l1 Hm1). rewrite Hr in IH.
        destruct (run A d ops m1) as [rs' m2| |] eqn:Hrun; [|done..].
        by destruct (IH rs' m2).
    + intros rs m'. by rewrite (bind_undefined _ _ _ _ Ho).
Qed.

Lemma drain_sim fuel : ∀ m d l,
  models m d l → (length l ≤ fuel)%nat →
  ∃ m', drain fuel d m = Returns l m' ∧ models m' d [].
Proof.
  induction fuel as [|fuel IH]; intros m d l Hm Hlen.
  - destruct l; [|simpl in Hlen; lia]. by exists m.
  - destruct Hm as (cells & <- & H). cbn [drain].
    rewrite (bind_returns _ _ _ _ _ (is_empty_sim _ _ _ H)).
    destruct cells as [|[a v] cells].
    + simpl. exists m. split; [done|]. by exists [].
    + rewrite bool_decide_false by done.
      destruct (pop_front_sim _ _ _ _ _ H) as (m1 & Hp & Hm1 & _).
      rewrite (bind_returns _ _ _ _ _ Hp).
      destruct (IH m1 d (cells.*2)) as (m2 & Hd & Hm2).
      { by exists cells. } { rewrite length_fmap in *. simpl in Hlen. lia. }
      rewrite (bind_returns _ _ _ _ _ Hd). simpl. by exists m2.
Qed.

Lemma models_functional m d l l' : models m d l → models m d l' → l = l'.
Proof.
  intros H H'.
  destruct (drain_sim (length l `max` length l') m d l H) as (m1 & H1 & _); [lia|].
  destruct (drain_sim (length l `max` length l') m d l' H') as (m2 & H2 & _); [lia|].
  congruence.
Qed.

(** ** The reference model on pushes and pops at one end *)

Lemma ref_run_app ops1 ops2 l :
  Ref.run (ops1 ++ ops2) l
  = match Ref.run ops1 l with
    | Some (rs1, l1) =>
        match Ref.run ops2 l1 with
        | Some (rs2, l2) => Some (rs1 ++ rs2, l2)
        | None => None
        end
    | None => None
    end.
Proof.
  revert l. induction ops1 as [|o ops1 IH]; intros l; cbn [Ref.run app].
  - by destruct (Ref.run ops2 l) as [[??]|].
  - destruct (Ref.exec_op o l) as [[r l1]|]; [|done]. rewrite IH.
    destruct (Ref.run ops1 l1) as [[rs1 l2]|]; [|done].
    by destruct (Ref.run ops2 l2) as [[??]|].
Qed.

Lemma ref_run_push_back vs l :
  Ref.run (PushBack <$> vs) l = Some (replicate (length vs) Done, l ++ vs).
Proof.
  revert l. induction vs as [|v vs IH]; intros l; cbn.
  - by rewrite app_nil_r.
  - rewrite IH. by rewrite <-app_assoc.
Qed.

Lemma ref_run_push_front vs l :
  Ref.run (PushFront <$> vs) l = Some (replicate (length vs) Done, reverse vs ++ l).
Proof.
  revert l. induction vs as [|v vs IH]; intros l; cbn -[reverse].
  - done.
  - rewrite IH. by rewrite reverse_cons, <-app_assoc.
Qed.

Lemma ref_run_pop_front n vs l :
  n = length vs →
  Ref.run (replicate n PopFront) (vs ++ l) = Some (Value <$> vs, l).
Proof.
  intros ->. induction vs as [|v vs IH]; cbn; [done|]. by rewrite IH.
Qed.

Lemma ref_run_pop_back vs l :
  Ref.run (replicate (length vs) PopBack) (l ++ vs) = Some (Value <$> reverse vs, l).
Proof.
  induction vs as [|v vs IH] using rev_ind; [by rewrite app_nil_r|].
  rewrite length_app, Nat.add_comm. cbn [length Nat.add replicate Ref.run Ref.exec_op].
  rewrite app_assoc, last_snoc, removelast_last, IH.
  by rewrite reverse_snoc.
Qed.

Lemma run_from_fresh A m0 d m1 ops rs l :
  deque_alloc A m0 = Returns (Some d) m1 →
  Ref.run ops [] = Some (rs, l) →
  unless_oom A (run A (Some d) ops m1) (λ rs' m, rs' = rs ∧ models m (Some d) l).
Proof.
  intros Ha Hr. pose proof (run_sim A ops m1 (Some d) [] (deque_alloc_models _ _ _ _ Ha)) as H.
  by rewrite Hr in H.
Qed.

Lemma run_returns_inv A m0 d m1 ops rs m :
  deque_alloc A m0 = Returns (Some d) m1 →
  run A (Some d) ops m1 = Returns rs m →
  ∃ l, Ref.run ops [] = Some (rs, l) ∧ models m (Some d) l.
Proof.
  intros Ha Hr. pose proof (run_sim A ops m1 (Some d) [] (deque_alloc_models _ _ _ _ Ha)) as H.
  destruct (Ref.run ops []) as [[rs' l]|].
  - rewrite Hr in H. destruct H as [-> H]. by exists l.
  - by destruct (H rs m).
Qed.


Lemma run_prefix_ref ops : ∀ l rs l' k,
  Ref.run ops l = Some (rs, l') →
  ∃ lk, Ref.run (take k ops) l = Some (take k rs, lk).
Proof.
  induction ops as [|o ops IH]; intros l rs l' k H.
  - injection H as <- <-. rewrite !take_nil. by exists l.
  - destruct k as [|k]; [by exists l|]. cbn [take Ref.run] in *.
    destruct (Ref.exec_op o l) as [[r l1]|]; [|done].
    destruct (Ref.run ops l1) as [[rs1 l2]|] eqn:Hr; [|done].
    injection H as <- <-. destruct (IH l1 rs1 l2 k Hr) as (lk & ->).
    by exists lk.
Qed.

Lemma bump_fresh_deque :
  deque_alloc bump ∅ = Returns fresh_d (mem_after []).
Proof. vm_compute. reflexivity. Qed.

Lemma mem_after_run ops rs l :
  Ref.run ops [] = Some (rs, l) →
  run bump fresh_d ops (mem_after []) = Returns rs (mem_after ops) ∧
  models (mem_after ops) fresh_d l.
Proof.
  intros Hr. pose proof (run_from_fresh bump ∅ 1%positive _ ops rs l bump_fresh_deque Hr) as H.
  unfold mem_after at 2 3. rewrite (bind_returns _ _ _ _ _ bump_fresh_deque).
  change (Some 1%positive) with fresh_d in H. destruct (run bump fresh_d ops (mem_after [])) as [rs' m| |]; simpl in H.
  - by destruct H as [-> ?].
  - done.
  - done.
Qed.

Lemma models_header m d l :
  models m d l →
  ∃ da ds, d = Some da ∧ m !! da = Some (Deque ds) ∧
    (head ds = None ↔ l = []) ∧ (tail ds = None ↔ l = []) ∧
    (length l = 1%nat → is_Some (head ds) ∧ head ds = tail ds).
Proof.
  intros (cells & <- & [(da & -> & Hd) _ _]). eexists da, _. split; [done|].
  split; [exact Hd|]. cbn [head tail]. split; [|split].
  - destruct cells; cbn; naive_solver.
  - destruct cells as [|[a v] cells _] using rev_ind; [done|].
    rewrite fst_snoc, last_snoc, fmap_app. split; [done|]. intros Hnil. by destruct (cells.*2).
  - destruct cells as [|[a v] [|??]]; try done; intros _; cbn; eauto.
Qed.

(** ** The operations on the values alone *)

Lemma pop_front_models m d v l :
  models m d (v :: l) → ∃ m', deque_pop_front d m = Returns v m' ∧ models m' d l.
Proof.
  intros (cells & Hc & H). destruct cells as [|[a v'] cells]; [done|].
  injection Hc as -> <-. destruct (pop_front_sim _ _ _ _ _ H) as (m' & Hp & Hm' & _).
  exists m'. split; [done|]. by exists cells.
Qed.

Lemma pop_back_models m d v l :
  models m d (l ++ [v]) → ∃ m', deque_pop_back d m = Returns v m' ∧ models m' d l.
Proof.
  intros (cells & Hc & H). destruct cells as [|[a v'] cells _] using rev_ind.
  { by destruct l. }
  rewrite fmap_app in Hc. apply app_inj_tail in Hc as [<- [= ->]].
  destruct (pop_back_sim _ _ _ _ _ H) as (m' & Hp & Hm' & _).
  exists m'. split; [done|]. by exists cells.
Qed.

Lemma peek_front_models m d v l :
  models m d (v :: l) → deque_peek_front d m = Returns v m.
Proof.
  intros (cells & Hc & H). destruct cells as [|[a v'] cells]; [done|].
  injection Hc as -> <-. by eapply peek_front_sim.
Qed.

Lemma peek_back_models m d v l :
  models m d (l ++ [v]) → deque_peek_back d m = Returns v m.
Proof.
  intros (cells & Hc & H). destruct cells as [|[a v'] cells _] using rev_ind.
  { by destruct l. }
  rewrite fmap_app in Hc. apply app_inj_tail in Hc as [<- [= ->]].
  by eapply peek_back_sim.
Qed.

Lemma is_empty_models m d l :
  models m d l → deque_is_empty d m = Returns (bool_decide (l = [])) m.
Proof. intros (cells & <- & H). by apply is_empty_sim. Qed.

Lemma is_empty_returns m a ds :
  m !! a = Some (Deque ds) →
  deque_is_empty (Some a) m = Returns (bool_decide (head ds = None)) m.
Proof. intros H. unfold deque_is_empty. by step get_head_returns. Qed.


(** ** Only a failed allocation aborts *)

Lemma never_aborts_ret {T} (a : T) : never_aborts (mret a).
Proof. by intros m m'. Qed.

Lemma never_aborts_bind {T U} (c : M T) (k : T → M U) :
  never_aborts c → (∀ a, never_aborts (k a)) → never_aborts (c ≫= k).
Proof.
  intros Hc Hk m m'. unfold mbind, M_bind, bind.
  destruct (c m) as [a m1|m1|] eqn:E; [apply Hk| by destruct (Hc m m1) | done].
Qed.

Lemma never_aborts_load_deque d : never_aborts (load_deque d).
Proof. intros m m'. unfold load_deque. by repeat case_match. Qed.

Lemma never_aborts_load_node n : never_aborts (load_node n).
Proof. intros m m'. unfold load_node. by repeat case_match. Qed.

Lemma never_aborts_store p o : never_aborts (store p o).
Proof. intros m m'. unfold store. by repeat case_match. Qed.

Lemma never_aborts_free p : never_aborts (free p).
Proof. intros m m'. unfold free. by repeat case_match. Qed.

Lemma never_aborts_if {T} (b : bool) (c1 c2 : M T) :
  never_aborts c1 → never_aborts c2 → never_aborts (if b then c1 else c2).
Proof. by destruct b. Qed.

Create HintDb no_abort.
#[local] Hint Resolve never_aborts_ret never_aborts_load_deque never_aborts_load_node
  never_aborts_store never_aborts_free : no_abort.
#[local] Hint Extern 1 (never_aborts (_ ≫= _)) =>
  apply never_aborts_bind; [|intros ?] : no_abort.
#[local] Hint Extern 1 (never_aborts (if _ then _ else _)) =>
  apply never_aborts_if : no_abort.
#[local] Hint Extern 2 (never_aborts ?c) =>
  progress unfold get_head, get_tail, get_next, get_prev, get_val,
    set_head, set_tail, set_next, set_prev : no_abort.
#[local] Hint Extern 1 (never_aborts (ret _)) => apply never_aborts_ret : no_abort.

Lemma never_aborts_pop_front d : never_aborts (deque_pop_front d).
Proof. unfold deque_pop_front. auto 30 with no_abort. Qed.

Lemma never_aborts_pop_back d : never_aborts (deque_pop_back d).
Proof. unfold deque_pop_back. auto 30 with no_abort. Qed.

Lemma never_aborts_peek_front d : never_aborts (deque_peek_front d).
Proof. unfold deque_peek_front. auto 30 with no_abort. Qed.

Lemma never_aborts_peek_back d : never_aborts (deque_peek_back d).
Proof. unfold deque_peek_back. auto 30 with no_abort. Qed.

Lemma never_aborts_is_empty d : never_aborts (deque_is_empty d).
Proof. unfold deque_is_empty. auto 30 with no_abort. Qed.

Lemma push_front_aborted A d v m m' :
  deque_push_front A d v m = Aborted m' → m' = m ∧ alloc A m = None.
Proof.
  unfold deque_push_front. destruct (alloc A m) as [n|] eqn:Ha.
  - rewrite (bind_returns _ _ _ _ _ (malloc_returns _ _ _ Ha)).
    rewrite bool_decide_true by done. erewrite bind_returns by reflexivity.
    intros H. exfalso.
    match type of H with
    | ?c _ = _ => assert (never_aborts c) as Hn; [|exact (Hn _ _ H)]
    end.
    auto 30 with no_abort.
  - rewrite (bind_returns _ _ _ _ _ (malloc_fails _ _ Ha)). simpl. by intros [= <-].
Qed.

Lemma push_back_aborted A d v m m' :
  deque_push_back A d v m = Aborted m' → m' = m ∧ alloc A m = None.
Proof.
  unfold deque_push_back. destruct (alloc A m) as [n|] eqn:Ha.
  - rewrite (bind_returns _ _ _ _ _ (malloc_returns _ _ _ Ha)).
    rewrite bool_decide_true by done. erewrite bind_returns by reflexivity.
    intros H. exfalso.
    match type of H with
    | ?c _ = _ => assert (never_aborts c) as Hn; [|exact (Hn _ _ H)]
    end.
    auto 30 with no_abort.
  - rewrite (bind_returns _ _ _ _ _ (malloc_fails _ _ Ha)). simpl. by intros [= <-].
Qed.

Lemma exec_op_aborted A d o m m' :
  exec_op A d o m = Aborted m' → m' = m ∧ alloc A m = None.
Proof.
  destruct o; cbn [exec_op]; unfold mbind, M_bind, bind; intros H.
  - destruct (deque_push_front A d v m) eqn:E; [done| |done].
    injection H as ->. by apply push_front_aborted in E.
  - destruct (deque_push_back A d v m) eqn:E; [done| |done].
    injection H as ->. by apply push_back_aborted in E.
  - destruct (deque_pop_front d m) eqn:E; [done| |done]. by apply never_aborts_pop_front in E.
  - destruct (deque_pop_back d m) eqn:E; [done| |done]. by apply never_aborts_pop_back in E.
  - destruct (deque_peek_front d m) eqn:E; [done| |done]. by apply never_aborts_peek_front in E.
  - destruct (deque_peek_back d m) eqn:E; [done| |done]. by apply never_aborts_peek_back in E.
  - destruct (deque_is_empty d m) eqn:E; [done| |done]. by apply never_aborts_is_empty in E.
Qed.

(** ** Sanity checks of the model *)

(** What [bump] does on the sample run of the scenario: the deque is block 1
    and the nodes are blocks 2, 3 and 4. *)
Example sample_run :
  run bump fresh_d [PushBack 1; PushBack 2; PushFront 0; PopFront; PopBack] (mem_after [])
  = Returns [Done; Done; Done; Value 0; Value 2]
      (mem_after [PushBack 1; PushBack 2; PushFront 0; PopFront; PopBack]).
Proof. vm_compute. reflexivity. Qed.

(** With room for two live blocks only (the header and one node) the second
    push stops at its [assert], and the memory is the one the first push
    left. *)
Example second_push_aborts :
  (d ← deque_alloc (bounded 2); deque_push_back (bounded 2) d 1;;
   deque_push_back (bounded 2) d 2) ∅
  = Aborted (mem_after [PushBack 1]).
Proof. vm_compute. reflexivity. Qed.

(** After [push_back 1; push_back 2; pop_front] the remaining node (block 3)
    still has [prev] pointing at block 2, which has been freed. *)
Example stale_prev_after_pop_front :
  head_prev fresh_d (mem_after [PushBack 1; PushBack 2; PopFront])
  = Returns (Some 2%positive) (mem_after [PushBack 1; PushBack 2; PopFront]) ∧
  mem_after [PushBack 1; PushBack 2; PopFront] !! 2%positive = None.
Proof. split; vm_compute; reflexivity. Qed.

(** After [push_back 1; push_back 2; pop_back] the remaining node (block 2)
    still has [next] pointing at block 3, which has been freed. *)
Example stale_next_after_pop_back :
  tail_next fresh_d (mem_after [PushBack 1; PushBack 2; PopBack])
  = Returns (Some 3%positive) (mem_after [PushBack 1; PushBack 2; PopBack]) ∧
  mem_after [PushBack 1; PushBack 2; PopBack] !! 3%positive = None.
Proof. split; vm_compute; reflexivity. Qed.

(** ** The properties of the specification *)

(** C1.  Refinement of the reference double-ended queue.  Take any sequence
    [ops] of pushes, pops, peeks and emptiness tests that the reference
    model accepts from the empty list (so pops and peeks meet a non-empty
    deque), and run it on a freshly created deque.  After each step [k] the
    code has returned exactly the results of the model, the memory holds
    the model's list, and reading the deque out with repeated [pop_front]
    yields that list, for any bound on the rounds that is at least its
    length.  The only other outcome is the [assert] of a push whose
    [malloc] failed; undefined behaviour is excluded. *)
Theorem deque_refines_reference A m0 d m1 ops rs l :
  deque_alloc A m0 = Returns (Some d) m1 →
  Ref.run ops [] = Some (rs, l) →
  ∀ k, ∃ lk,
    Ref.run (take k ops) [] = Some (take k rs, lk) ∧
    unless_oom A (run A (Some d) (take k ops) m1) (λ rs' m,
      rs' = take k rs ∧ models m (Some d) lk ∧
      ∀ fuel, (length lk ≤ fuel)%nat →
        ∃ m', drain fuel (Some d) m = Returns lk m').
Proof.
  intros Ha Hr k. destruct (run_prefix_ref ops [] rs l k Hr) as (lk & Hk).
  exists lk. split; [done|].
  eapply unless_oom_mono; [by eapply run_from_fresh|].
  intros rs' m [-> Hm]. split; [done|]. split; [done|].
  intros fuel Hf. destruct (drain_sim fuel m (Some d) lk Hm Hf) as (m' & Hd & _). eauto.
Qed.

Lemma deque_refines_reference_witness :
  ∃ lk,
    Ref.run (take 4 ops0) []
    = Some (take 4 [Done; Done; Value 1; Value 1; Flag false; Done], lk) ∧
    unless_oom bump (run bump fresh_d (take 4 ops0) (mem_after []))
      (λ rs' m,
        rs' = take 4 [Done; Done; Value 1; Value 1; Flag false; Done] ∧
        models m fresh_d lk ∧
        ∀ fuel, (length lk ≤ fuel)%nat →
          ∃ m', drain fuel fresh_d m = Returns lk m').
Proof.
  apply (deque_refines_reference bump ∅ 1%positive (mem_after []) ops0
           [Done; Done; Value 1; Value 1; Flag false; Done] [0; 5]);
    vm_compute; reflexivity.
Defined.

(** C2, as the specification states it, fails: on the freshly created
    (empty) deque none of [pop_front], [pop_back], [peek_front] and
    [peek_back] comes back to the caller with any result, an error signal
    included. *)
Lemma empty_access_counterexample :
  models (mem_after []) fresh_d [] ∧
  ¬ returns_to_caller (deque_pop_front fresh_d (mem_after [])) ∧
  ¬ returns_to_caller (deque_pop_back fresh_d (mem_after [])) ∧
  ¬ returns_to_caller (deque_peek_front fresh_d (mem_after [])) ∧
  ¬ returns_to_caller (deque_peek_back fresh_d (mem_after [])).
Proof.
  split; [by apply (mem_after_run [] [] [])|].
  repeat split; intros (a & m & H); vm_compute in H; discriminate H.
Qed.

(** C2, amended.  On every empty deque each of [pop_front], [pop_back],
    [peek_front] and [peek_back] dereferences the null [head] or [tail]
    pointer: the call has undefined behaviour.  Non-emptiness is a
    precondition the caller must establish. *)
Theorem empty_access_undefined m d :
  models m d [] →
  deque_pop_front d m = Undefined m ∧ deque_pop_back d m = Undefined m ∧
  deque_peek_front d m = Undefined m ∧ deque_peek_back d m = Undefined m.
Proof.
  intros (cells & Hc & H). apply fmap_nil_inv in Hc as ->.
  auto using pop_front_empty, pop_back_empty, peek_front_empty, peek_back_empty.
Qed.

Lemma empty_access_undefined_witness :
  deque_pop_front fresh_d (mem_after []) = Undefined (mem_after []) ∧
  deque_pop_back fresh_d (mem_after []) = Undefined (mem_after []) ∧
  deque_peek_front fresh_d (mem_after []) = Undefined (mem_after []) ∧
  deque_peek_back fresh_d (mem_after []) = Undefined (mem_after []).
Proof.
  apply (empty_access_undefined (mem_after []) fresh_d).
  apply (mem_after_run [] [] []). reflexivity.
Defined.

(** C3.  The code breaks the invariant that the head node has no [prev] and
    the tail node has no [next].  On every deque of two or more elements,
    [pop_front] returns and leaves the new head node with a [prev] field
    that is not null: it still holds the address of the node just freed.
    In the same way [pop_back] leaves the new tail node with a [next] field
    holding the address of the node just freed. *)
Theorem pops_leave_stale_links m d l :
  models m d l → (2 ≤ length l)%nat →
  (∃ v m' p, deque_pop_front d m = Returns v m' ∧
             head_prev d m' = Returns (Some p) m' ∧ m' !! p = None) ∧
  (∃ v m' p, deque_pop_back d m = Returns v m' ∧
             tail_next d m' = Returns (Some p) m' ∧ m' !! p = None).
Proof.
  intros (cells & <- & H) Hlen. rewrite length_fmap in Hlen. split.
  - destruct cells as [|[a v] [|[b w] cells]]; [simpl in Hlen; lia..|].
    destruct (pop_front_sim _ _ _ _ _ H) as (m' & Hp & Hm' & Hfree & Hframe).
    exists v, m', a. split; [done|]. split; [|done].
    destruct (repr_nodes _ _ _ H 1%nat b w eq_refl) as (x & Hx & _ & _ & Hprev).
    pose proof (repr_nodup _ _ _ H) as Hnd.
    destruct Hm' as [(da & -> & Hd') _ _]. destruct H as [(da' & [= <-] & Hd) _ _].
    assert (prev x = Some a) as Hpa by (by apply (Hprev 0%nat)).
    assert (m' !! b = Some (Node x)) as Hb'.
    { rewrite Hframe; [done| |congruence].
      intros ->. apply NoDup_cons_1_1 in Hnd. apply Hnd. cbn. left. }
    unfold head_prev. step get_head_returns. cbn.
    rewrite <-Hpa. by apply get_prev_returns.
  - destruct cells as [|[a v] cells _] using rev_ind; [simpl in Hlen; lia|].
    destruct cells as [|[b w] cells _] using rev_ind.
    { simpl in Hlen; lia. }
    destruct (pop_back_sim _ _ _ _ _ H) as (m' & Hp & Hm' & Hfree & Hframe).
    exists v, m', a. split; [done|]. split; [|done].
    destruct (repr_nodes _ _ _ H (length cells) b w) as (x & Hx & _ & Hnext & _).
    { rewrite <-app_assoc. by apply list_lookup_middle. }
    pose proof (repr_nodup _ _ _ H) as Hnd.
    destruct Hm' as [(da & -> & Hd') _ _]. destruct H as [(da' & [= <-] & Hd) _ _].
    assert (next x = Some a) as Hna.
    { apply Hnext. rewrite !fst_snoc, <-app_assoc. cbn.
      rewrite lookup_app_r; rewrite length_fmap; [|lia].
      by replace (S (length cells) - length cells)%nat with 1%nat by lia. }
    assert (m' !! b = Some (Node x)) as Hb'.
    { rewrite Hframe; [done| |congruence].
      intros ->. rewrite !fst_snoc, <-app_assoc in Hnd.
      apply NoDup_app in Hnd as (_ & _ & Hnd). cbn in Hnd.
      apply NoDup_cons_1_1 in Hnd. apply Hnd. left. }
    unfold tail_next. step get_tail_returns. cbn. rewrite fst_snoc, last_snoc.
    rewrite <-Hna. by apply get_next_returns.
Qed.

Lemma pops_leave_stale_links_witness :
  (∃ v m' p,
     deque_pop_front fresh_d (mem_after [PushBack 1; PushBack 2]) = Returns v m' ∧
     head_prev fresh_d m' = Returns (Some p) m' ∧ m' !! p = None) ∧
  (∃ v m' p,
     deque_pop_back fresh_d (mem_after [PushBack 1; PushBack 2]) = Returns v m' ∧
     tail_next fresh_d m' = Returns (Some p) m' ∧ m' !! p = None).
Proof.
  apply (pops_leave_stale_links (mem_after [PushBack 1; PushBack 2]) fresh_d [1; 2]).
  - apply (mem_after_run [PushBack 1; PushBack 2] [Done; Done] [1; 2]). reflexivity.
  - simpl. lia.
Defined.

(** C4.  The concrete scenario.  On a freshly created deque,
    [push_back 1; push_back 2; push_front 0] leaves the sequence [0,1,2];
    then [pop_front] returns 0 and leaves [1,2]; [pop_back] returns 2 and
    leaves [1]; [is_empty] is false; [pop_front] returns 1; and [is_empty]
    is then true.  (The three pushes run to the end unless [malloc]
    fails.) *)
Theorem concrete_scenario A m0 d m1 :
  deque_alloc A m0 = Returns (Some d) m1 →
  unless_oom A (run A (Some d) [PushBack 1; PushBack 2; PushFront 0] m1) (λ _ m3,
    models m3 (Some d) [0; 1; 2] ∧
    ∃ m4, deque_pop_front (Some d) m3 = Returns 0 m4 ∧ models m4 (Some d) [1; 2] ∧
    ∃ m5, deque_pop_back (Some d) m4 = Returns 2 m5 ∧ models m5 (Some d) [1] ∧
          deque_is_empty (Some d) m5 = Returns false m5 ∧
    ∃ m6, deque_pop_front (Some d) m5 = Returns 1 m6 ∧
          deque_is_empty (Some d) m6 = Returns true m6).
Proof.
  intros Ha. eapply unless_oom_mono.
  { eapply run_from_fresh; [exact Ha|reflexivity]. }
  intros rs m3 [_ H3]. cbn in H3. split; [done|].
  destruct (pop_front_models _ _ _ _ H3) as (m4 & Hp4 & H4).
  exists m4. split; [done|]. split; [done|].
  destruct (pop_back_models m4 (Some d) 2 [1] H4) as (m5 & Hp5 & H5).
  exists m5. split; [done|]. split; [done|].
  split; [by rewrite (is_empty_models _ _ _ H5)|].
  destruct (pop_front_models _ _ _ _ H5) as (m6 & Hp6 & H6).
  exists m6. split; [done|]. by rewrite (is_empty_models _ _ _ H6).
Qed.

Lemma concrete_scenario_witness :
  unless_oom bump
    (run bump fresh_d [PushBack 1; PushBack 2; PushFront 0] (mem_after [])) (λ _ m3,
    models m3 fresh_d [0; 1; 2] ∧
    ∃ m4, deque_pop_front fresh_d m3 = Returns 0 m4 ∧ models m4 fresh_d [1; 2] ∧
    ∃ m5, deque_pop_back fresh_d m4 = Returns 2 m5 ∧ models m5 fresh_d [1] ∧
          deque_is_empty fresh_d m5 = Returns false m5 ∧
    ∃ m6, deque_pop_front fresh_d m5 = Returns 1 m6 ∧
          deque_is_empty fresh_d m6 = Returns true m6).
Proof.
  apply (concrete_scenario bump ∅ 1%positive (mem_after [])). vm_compute. reflexivity.
Defined.

(** C5.  Queue behaviour.  Pushing the values [vs] with [push_back] onto a
    freshly created deque and then popping as many times with [pop_front]
    returns the values in the order they were pushed, and leaves the deque
    empty. *)
Theorem push_back_pop_front_fifo A m0 d m1 vs :
  deque_alloc A m0 = Returns (Some d) m1 →
  unless_oom A
    (run A (Some d) ((PushBack <$> vs) ++ replicate (length vs) PopFront) m1)
    (λ rs m, rs = replicate (length vs) Done ++ (Value <$> vs) ∧ models m (Some d) []).
Proof.
  intros Ha. eapply run_from_fresh; [exact Ha|].
  rewrite ref_run_app, ref_run_push_back. cbn [app].
  pose proof (ref_run_pop_front (length vs) vs [] eq_refl) as Hpop.
  rewrite app_nil_r in Hpop. by rewrite Hpop.
Qed.

Lemma push_back_pop_front_fifo_witness :
  unless_oom bump
    (run bump fresh_d ((PushBack <$> [4; 5; 6]) ++ replicate (length [4; 5; 6]) PopFront)
       (mem_after []))
    (λ rs m, rs = replicate (length [4; 5; 6]) Done ++ (Value <$> [4; 5; 6]) ∧
             models m fresh_d []).
Proof.
  apply (push_back_pop_front_fifo bump ∅ 1%positive (mem_after []) [4; 5; 6]).
  vm_compute. reflexivity.
Defined.

(** C6.  Stack behaviour at either end.  On any deque, whatever values [l]
    it already holds (none, for a freshly created one), pushing the values
    [vs] all with [push_front] and popping as many times with [pop_front]
    returns them in the reverse of the push order and leaves the deque
    holding [l] again; so does pushing them all with [push_back] and
    popping with [pop_back]. *)
Theorem one_end_lifo A m d l vs :
  models m d l →
  unless_oom A
    (run A d ((PushFront <$> vs) ++ replicate (length vs) PopFront) m)
    (λ rs m', rs = replicate (length vs) Done ++ (Value <$> reverse vs) ∧
              models m' d l) ∧
  unless_oom A
    (run A d ((PushBack <$> vs) ++ replicate (length vs) PopBack) m)
    (λ rs m', rs = replicate (length vs) Done ++ (Value <$> reverse vs) ∧
              models m' d l).
Proof.
  intros Hm. split.
  - pose proof (run_sim A ((PushFront <$> vs) ++ replicate (length vs) PopFront)
                  m d l Hm) as H.
    rewrite ref_run_app, ref_run_push_front in H.
    by rewrite ref_run_pop_front in H by (by rewrite length_reverse).
  - pose proof (run_sim A ((PushBack <$> vs) ++ replicate (length vs) PopBack)
                  m d l Hm) as H.
    rewrite ref_run_app, ref_run_push_back in H.
    by rewrite ref_run_pop_back in H.
Qed.

Lemma one_end_lifo_witness :
  unless_oom bump
    (run bump fresh_d ((PushFront <$> [4; 5; 6]) ++ replicate (length [4; 5; 6]) PopFront)
       (mem_after [PushBack 1; PushBack 2]))
    (λ rs m', rs = replicate (length [4; 5; 6]) Done ++ (Value <$> reverse [4; 5; 6]) ∧
              models m' fresh_d [1; 2]) ∧
  unless_oom bump
    (run bump fresh_d ((PushBack <$> [4; 5; 6]) ++ replicate (length [4; 5; 6]) PopBack)
       (mem_after [PushBack 1; PushBack 2]))
    (λ rs m', rs = replicate (length [4; 5; 6]) Done ++ (Value <$> reverse [4; 5; 6]) ∧
              models m' fresh_d [1; 2]).
Proof.
  apply (one_end_lifo bump (mem_after [PushBack 1; PushBack 2]) fresh_d [1; 2] [4; 5; 6]).
  apply (mem_after_run [PushBack 1; PushBack 2] [Done; Done] [1; 2]). reflexivity.
Defined.

(** C7.  In every state reached from [deque_alloc] by a sequence of pushes,
    pops, peeks and emptiness tests that returns, the header is live, the
    run agrees with the reference model, and with [l] the list the deque
    then holds: [head] is null iff [tail] is null; [head] is null iff [l]
    is empty; [deque_is_empty] returns true iff [head] is null and changes
    nothing; and when [l] has one element, [head] and [tail] are the same
    non-null pointer. *)
Theorem ends_absent_together A m0 d m1 ops rs m :
  deque_alloc A m0 = Returns (Some d) m1 →
  run A (Some d) ops m1 = Returns rs m →
  ∃ ds l, m !! d = Some (Deque ds) ∧
    Ref.run ops [] = Some (rs, l) ∧ models m (Some d) l ∧
    (head ds = None ↔ tail ds = None) ∧
    (head ds = None ↔ l = []) ∧
    deque_is_empty (Some d) m = Returns (bool_decide (head ds = None)) m ∧
    (length l = 1%nat → is_Some (head ds) ∧ head ds = tail ds).
Proof.
  intros Ha Hr. destruct (run_returns_inv _ _ _ _ _ _ _ Ha Hr) as (l & Hl & Hm).
  destruct (models_header _ _ _ Hm) as (da & ds & [= <-] & Hd & Hh & Ht & H1).
  exists ds, l. split; [done|]. split; [done|]. split; [done|].
  split; [by rewrite Hh, Ht|]. split; [done|]. split; [|done].
  by apply is_empty_returns.
Qed.

Lemma ends_absent_together_witness :
  ∃ ds l, mem_after [PushBack 7] !! 1%positive = Some (Deque ds) ∧
    Ref.run [PushBack 7] [] = Some ([Done], l) ∧
    models (mem_after [PushBack 7]) (Some 1%positive) l ∧
    (head ds = None ↔ tail ds = None) ∧
    (head ds = None ↔ l = []) ∧
    deque_is_empty (Some 1%positive) (mem_after [PushBack 7])
    = Returns (bool_decide (head ds = None)) (mem_after [PushBack 7]) ∧
    (length l = 1%nat → is_Some (head ds) ∧ head ds = tail ds).
Proof.
  apply (ends_absent_together bump ∅ 1%positive (mem_after []) [PushBack 7] [Done]);
    vm_compute; reflexivity.
Defined.

(** C8.  On every non-empty deque [peek_front] returns the first value and
    [peek_back] the last one, each leaving the memory exactly as it was: the
    element sequence is the same, a second call returns the same value,
    and [deque_is_empty] answers after a peek as it does before. *)
Theorem peeks_are_pure m d l :
  models m d l → l ≠ [] →
  ∃ vf vb, hd_error l = Some vf ∧ last l = Some vb ∧
    deque_peek_front d m = Returns vf m ∧
    deque_peek_back d m = Returns vb m ∧
    (v1 ← deque_peek_front d; v2 ← deque_peek_front d; mret (v1, v2)) m
    = Returns (vf, vf) m ∧
    (v1 ← deque_peek_back d; v2 ← deque_peek_back d; mret (v1, v2)) m
    = Returns (vb, vb) m ∧
    (_ ← deque_peek_front d; deque_is_empty d) m = deque_is_empty d m ∧
    (_ ← deque_peek_back d; deque_is_empty d) m = deque_is_empty d m.
Proof.
  intros Hm Hne.
  assert (∃ vf l', l = vf :: l') as (vf & l1 & Hf) by (destruct l; [done|eauto]).
  assert (∃ vb l', l = l' ++ [vb]) as (vb & l2 & Hb).
  { destruct l as [|x l' _] using rev_ind; [done|eauto]. }
  assert (deque_peek_front d m = Returns vf m) as Hpf.
  { rewrite Hf in Hm. by eapply peek_front_models. }
  assert (deque_peek_back d m = Returns vb m) as Hpb.
  { rewrite Hb in Hm. by eapply peek_back_models. }
  exists vf, vb. split; [by rewrite Hf|]. split; [by rewrite Hb, last_snoc|].
  split; [done|]. split; [done|].
  repeat split.
  - by rewrite (bind_returns _ _ _ _ _ Hpf), (bind_returns _ _ _ _ _ Hpf).
  - by rewrite (bind_returns _ _ _ _ _ Hpb), (bind_returns _ _ _ _ _ Hpb).
  - by rewrite (bind_returns _ _ _ _ _ Hpf).
  - by rewrite (bind_returns _ _ _ _ _ Hpb).
Qed.

Lemma peeks_are_pure_witness :
  ∃ vf vb, hd_error [8; 9] = Some vf ∧ last [8; 9] = Some vb ∧
    deque_peek_front fresh_d (mem_after [PushBack 9; PushFront 8])
    = Returns vf (mem_after [PushBack 9; PushFront 8]) ∧
    deque_peek_back fresh_d (mem_after [PushBack 9; PushFront 8])
    = Returns vb (mem_after [PushBack 9; PushFront 8]) ∧
    (v1 ← deque_peek_front fresh_d; v2 ← deque_peek_front fresh_d; mret (v1, v2))
      (mem_after [PushBack 9; PushFront 8])
    = Returns (vf, vf) (mem_after [PushBack 9; PushFront 8]) ∧
    (v1 ← deque_peek_back fresh_d; v2 ← deque_peek_back fresh_d; mret (v1, v2))
      (mem_after [PushBack 9; PushFront 8])
    = Returns (vb, vb) (mem_after [PushBack 9; PushFront 8]) ∧
    (_ ← deque_peek_front fresh_d; deque_is_empty fresh_d)
      (mem_after [PushBack 9; PushFront 8])
    = deque_is_empty fresh_d (mem_after [PushBack 9; PushFront 8]) ∧
    (_ ← deque_peek_back fresh_d; deque_is_empty fresh_d)
      (mem_after [PushBack 9; PushFront 8])
    = deque_is_empty fresh_d (mem_after [PushBack 9; PushFront 8]).
Proof.
  apply (peeks_are_pure (mem_after [PushBack 9; PushFront 8]) fresh_d [8; 9]).
  - apply (mem_after_run [PushBack 9; PushFront 8] [Done; Done] [8; 9]). reflexivity.
  - discriminate.
Defined.


(** A pop is its first line, the read of [d->head->val] or [d->tail->val],
    followed by the rest of its body. *)
Lemma pop_front_unfold d :
  deque_pop_front d = (h ← get_head d; v ← get_val h; pop_front_rest d v).
Proof. reflexivity. Qed.

Lemma pop_back_unfold d :
  deque_pop_back d = (t ← get_tail d; v ← get_val t; pop_back_rest d v).
Proof. reflexivity. Qed.

(** On an empty deque the rest of a pop changes nothing either: it writes
    [NULL] over the null [tail] and [head] and calls [free(NULL)].  So
    whatever the faulting read of the first line does, no statement of the
    body alters the memory. *)
Lemma pop_rest_on_empty m d v :
  models m d [] →
  pop_front_rest d v m = Returns v m ∧ pop_back_rest d v m = Returns v m.
Proof.
  intros (cells & Hc & H). apply fmap_nil_inv in Hc as ->.
  destruct H as [(da & -> & Hd) _ _]. cbn in Hd.
  assert (<[da := Deque {| head := None; tail := None |}]>
            (<[da := Deque {| head := None; tail := None |}]> m) = m) as Hid.
  { rewrite insert_insert_eq. by apply insert_id. }
  split.
  - unfold pop_front_rest.
    step get_head_returns. step get_head_returns. step get_tail_returns. cbn.
    rewrite bool_decide_true by done.
    erewrite (bind_returns (set_tail _ _ ≫= _)).
    2:{ step set_tail_returns. erewrite set_head_returns by lookup. done. }
    cbn. by rewrite Hid.
  - unfold pop_back_rest.
    step get_tail_returns. step get_head_returns. step get_tail_returns. cbn.
    rewrite bool_decide_true by done.
    erewrite (bind_returns (set_tail _ _ ≫= _)).
    2:{ step set_tail_returns. erewrite set_head_returns by lookup. done. }
    cbn. by rewrite Hid.
Qed.



(** The three ways of C9 on concrete calls: a pop on the fresh deque faults
    in the memory it was given, and a push with no memory left aborts in
    the memory it was given. *)
Example failures_on_the_fresh_deque :
  memory_after (deque_pop_front fresh_d (mem_after [])) = Some (mem_after []) ∧
  memory_after (deque_peek_back fresh_d (mem_after [])) = Some (mem_after []) ∧
  memory_after (deque_push_front exhausted fresh_d 1 (mem_after [])) = Some (mem_after []) ∧
  ¬ returns_to_caller (deque_pop_front fresh_d (mem_after [])) ∧
  ¬ returns_to_caller (deque_push_front exhausted fresh_d 1 (mem_after [])).
Proof.
  repeat split; try (vm_compute; reflexivity);
    intros (a & m & H); vm_compute in H; discriminate H.
Qed.

(** C10.  On every non-empty deque [peek_front] returns the value that the
    [pop_front] right after it returns, which is the first value of the
    deque; and [peek_back] returns the value that the [pop_back] right
    after it returns, which is the last one. *)
Theorem peek_agrees_with_pop m d l :
  models m d l → l ≠ [] →
  (∃ v m', hd_error l = Some v ∧
     (v1 ← deque_peek_front d; v2 ← deque_pop_front d; mret (v1, v2)) m
     = Returns (v, v) m') ∧
  (∃ v m', last l = Some v ∧
     (v1 ← deque_peek_back d; v2 ← deque_pop_back d; mret (v1, v2)) m
     = Returns (v, v) m').
Proof.
  intros Hm Hne. split.
  - destruct l as [|v l']; [done|].
    destruct (pop_front_models _ _ _ _ Hm) as (m' & Hp & _).
    exists v, m'. split; [done|].
    by rewrite (bind_returns _ _ _ _ _ (peek_front_models _ _ _ _ Hm)),
      (bind_returns _ _ _ _ _ Hp).
  - destruct l as [|v l' _] using rev_ind; [done|].
    destruct (pop_back_models _ _ _ _ Hm) as (m' & Hp & _).
    exists v, m'. split; [by rewrite last_snoc|].
    by rewrite (bind_returns _ _ _ _ _ (peek_back_models _ _ _ _ Hm)),
      (bind_returns _ _ _ _ _ Hp).
Qed.

Lemma peek_agrees_with_pop_witness :
  (∃ v m', hd_error [8; 9] = Some v ∧
     (v1 ← deque_peek_front fresh_d; v2 ← deque_pop_front fresh_d; mret (v1, v2))
       (mem_after [PushBack 9; PushFront 8])
     = Returns (v, v) m') ∧
  (∃ v m', last [8; 9] = Some v ∧
     (v1 ← deque_peek_back fresh_d; v2 ← deque_pop_back fresh_d; mret (v1, v2))
       (mem_after [PushBack 9; PushFront 8])
     = Returns (v, v) m').
Proof.
  apply (peek_agrees_with_pop (mem_after [PushBack 9; PushFront 8]) fresh_d [8; 9]).
  - apply (mem_after_run [PushBack 9; PushFront 8] [Done; Done] [8; 9]). reflexivity.
  - discriminate.
Defined.


(** ** Frames: what an operation leaves untouched *)

Lemma repr_header_not_cell m da cells :
  deque_repr m (Some da) cells → da ∉ cells.*1.
Proof.
  intros H Hin. destruct (repr_addr_live _ _ _ _ H Hin) as [n Hn].
  destruct H as [(da' & [= <-] & Hd) _ _]. congruence.
Qed.

Lemma push_front_frame A m d cells v r m' :
  deque_repr m d cells →
  deque_push_front A d v m = Returns r m' →
  ∃ n, m !! n = None ∧ deque_repr m' d ((n, v) :: cells) ∧
       ∀ k, k ≠ n → Some k ≠ d → k ∉ cells.*1 → m' !! k = m !! k.
Proof.
  intros H Hret. pose proof (push_front_sim A m d cells v H) as Hsim.
  rewrite Hret in Hsim. destruct Hsim as (n & Hfresh & Hm').
  exists n. split; [done|]. split; [done|]. intros k Hkn Hkd Hk.
  pose proof H as [(da & -> & Hd) Hnd Hn].
  revert Hret. unfold deque_push_front.
  destruct (alloc A m) as [n'|] eqn:Ha.
  2:{ by rewrite (bind_returns _ _ _ _ _ (malloc_fails _ _ Ha)). }
  rewrite (bind_returns _ _ _ _ _ (malloc_returns _ _ _ Ha)).
  pose proof (alloc_fresh _ _ _ Ha) as Hfresh'.
  assert (n' ≠ da) as Hnda by congruence.
  rewrite bool_decide_true by done.
  erewrite bind_returns by reflexivity.
  step get_head_returns. cbn [head].
  step store_returns.
  step get_tail_returns. cbn [tail].
  assert (k ≠ da) by congruence.
  assert (∀ mm, mm !! da = Some (Deque {| head := Some n'; tail := last ((n', v) :: cells).*1 |}) →
                mm = m' → n' = n) as Hsame.
  { intros mm Hmm ->. destruct Hm' as [(da' & [= <-] & Hd') _ _]. rewrite Hd' in Hmm.
    by injection Hmm. }
  destruct cells as [|[h w] cells].
  - cbn. step set_tail_returns. erewrite set_head_returns by lookup. cbn.
    intros [= _ <-]. assert (n' = n) as -> by (eapply Hsame; [|done]; lookup).
    by lookup.
  - assert (is_Some (last ((h, w) :: cells).*1)) as [t Ht] by (by apply last_is_Some).
    rewrite Ht. rewrite bool_decide_false by done.
    step get_head_returns. cbn [head hd_error fmap list_fmap fst].
    destruct (Hn 0%nat h w eq_refl) as (hn & Hh & _).
    assert (h ≠ da) by congruence.
    assert (h ≠ n') by congruence.
    step set_prev_returns.
    erewrite set_head_returns by lookup. cbn.
    intros [= _ <-].
    assert (n' = n) as ->.
    { eapply Hsame; [|done]. lookup. }
    assert (k ≠ h). { intros ->. apply Hk. cbn. left. }
    by lookup.
Qed.

Lemma push_back_frame A m d cells v r m' :
  deque_repr m d cells →
  deque_push_back A d v m = Returns r m' →
  ∃ n, m !! n = None ∧ deque_repr m' d (cells ++ [(n, v)]) ∧
       ∀ k, k ≠ n → Some k ≠ d → k ∉ cells.*1 → m' !! k = m !! k.
Proof.
  intros H Hret. pose proof (push_back_sim A m d cells v H) as Hsim.
  rewrite Hret in Hsim. destruct Hsim as (n & Hfresh & Hm').
  exists n. split; [done|]. split; [done|]. intros k Hkn Hkd Hk.
  pose proof H as [(da & -> & Hd) Hnd Hn].
  revert Hret. unfold deque_push_back.
  destruct (alloc A m) as [n'|] eqn:Ha.
  2:{ by rewrite (bind_returns _ _ _ _ _ (malloc_fails _ _ Ha)). }
  rewrite (bind_returns _ _ _ _ _ (malloc_returns _ _ _ Ha)).
  pose proof (alloc_fresh _ _ _ Ha) as Hfresh'.
  assert (n' ≠ da) as Hnda by congruence.
  rewrite bool_decide_true by done.
  erewrite bind_returns by reflexivity.
  step get_tail_returns. cbn [tail].
  step store_returns.
  step get_head_returns. cbn [head].
  assert (k ≠ da) by congruence.
  assert (∀ mm hh, mm !! da = Some (Deque {| head := hh; tail := Some n' |}) →
                   mm = m' → n' = n) as Hsame.
  { intros mm hh Hmm ->. destruct Hm' as [(da' & [= <-] & Hd') _ _]. rewrite Hd' in Hmm.
    rewrite fst_snoc, last_snoc in Hmm. by injection Hmm. }
  destruct (decide (cells = [])) as [->|Hne].
  - cbn. step set_tail_returns. erewrite set_head_returns by lookup. cbn.
    intros [= _ <-]. assert (n' = n) as -> by (eapply Hsame; [|done]; lookup).
    by lookup.
  - assert (is_Some (hd_error cells.*1)) as [h Hh].
    { apply head_is_Some. by destruct cells. }
    assert (is_Some (last cells.*1)) as [t Ht].
    { apply last_is_Some. by destruct cells. }
    rewrite Hh, Ht in *. rewrite bool_decide_false by done.
    step get_tail_returns. cbn [tail].
    assert (t ∈ cells.*1) as Htin by (by eapply last_Some_elem_of).
    destruct (repr_addr_live _ _ _ _ H Htin) as [tn Htn].
    assert (t ≠ da) by congruence.
    assert (t ≠ n') by congruence.
    step set_next_returns.
    erewrite set_tail_returns by lookup. cbn.
    intros [= _ <-].
    assert (n' = n) as -> by (eapply Hsame; [|done]; lookup).
    assert (k ≠ t) by (by intros ->).
    by lookup.
Qed.

Lemma exec_op_frame A m d cells o r m' :
  deque_repr m d cells →
  exec_op A d o m = Returns r m' →
  ∃ cells', deque_repr m' d cells' ∧
    Ref.exec_op o cells.*2 = Some (r, cells'.*2) ∧
    (∀ k, Some k ≠ d → k ∉ cells.*1 → k ∉ cells'.*1 → m' !! k = m !! k) ∧
    (∀ k, k ∈ cells'.*1 → k ∉ cells.*1 → m !! k = None) ∧
    (∀ k, k ∈ cells.*1 → k ∉ cells'.*1 → m' !! k = None).
Proof.
  intros H Hret. destruct o as [v|v| | | | |]; cbn [exec_op Ref.exec_op] in *;
    unfold mbind, M_bind, bind in Hret.
  - destruct (deque_push_front A d v m) as [[] m1| |] eqn:E; [|done..].
    injection Hret as <- <-.
    destruct (push_front_frame _ _ _ _ _ _ _ H E) as (n & Hfresh & Hm' & Hfr).
    exists ((n, v) :: cells). split; [done|]. split; [done|]. split; [|split].
    + intros k ? ? Hk. apply Hfr; [|done..]. intros ->. apply Hk. cbn. left.
    + intros k [-> | ?]%elem_of_cons ?; done.
    + intros k ? Hk. exfalso. apply Hk. cbn. by right.
  - destruct (deque_push_back A d v m) as [[] m1| |] eqn:E; [|done..].
    injection Hret as <- <-.
    destruct (push_back_frame _ _ _ _ _ _ _ H E) as (n & Hfresh & Hm' & Hfr).
    exists (cells ++ [(n, v)]). split; [done|]. split; [by rewrite fmap_app|].
    rewrite fst_snoc. split; [|split].
    + intros k ? ? Hk. apply Hfr; [|done..]. intros ->. apply Hk.
      apply elem_of_app. right. left.
    + intros k [? | ->%list_elem_of_singleton]%elem_of_app ?; done.
    + intros k ? Hk. exfalso. apply Hk. apply elem_of_app. by left.
  - destruct (deque_pop_front d m) as [v m1| |] eqn:E; [|done..].
    injection Hret as <- <-.
    destruct cells as [|[a w] cells].
    { by rewrite (pop_front_empty _ _ H) in E. }
    destruct (pop_front_sim _ _ _ _ _ H) as (m2 & Hp & Hm2 & Hfree & Hfr).
    rewrite Hp in E. injection E as <- <-.
    exists cells. split; [done|]. split; [done|]. split; [|split].
    + intros k ? Hk ?. apply Hfr; [|done]. intros ->. apply Hk. cbn. left.
    + intros k ? Hk. exfalso. apply Hk. cbn. by right.
    + intros k [-> | ?]%elem_of_cons ?; done.
  - destruct (deque_pop_back d m) as [v m1| |] eqn:E; [|done..].
    injection Hret as <- <-.
    destruct cells as [|[a w] cells _] using rev_ind.
    { by rewrite (pop_back_empty _ _ H) in E. }
    destruct (pop_back_sim _ _ _ _ _ H) as (m2 & Hp & Hm2 & Hfree & Hfr).
    rewrite Hp in E. injection E as <- <-.
    exists cells. split; [done|].
    split; [by rewrite fmap_app; cbn; rewrite last_snoc, removelast_last|].
    rewrite fst_snoc. split; [|split].
    + intros k ? Hk ?. apply Hfr; [|done]. intros ->. apply Hk.
      apply elem_of_app. right. left.
    + intros k ? Hk. exfalso. apply Hk. apply elem_of_app. by left.
    + intros k [? | ->%list_elem_of_singleton]%elem_of_app ?; done.
  - destruct (deque_peek_front d m) as [v m1| |] eqn:E; [|done..].
    injection Hret as <- <-.
    destruct cells as [|[a w] cells].
    { by rewrite (peek_front_empty _ _ H) in E. }
    rewrite (peek_front_sim _ _ _ _ _ H) in E. injection E as <- <-.
    exists ((a, w) :: cells). split; [done|]. split; [done|]. split; [done|]. split; intros k ? ?; done.
  - destruct (deque_peek_back d m) as [v m1| |] eqn:E; [|done..].
    injection Hret as <- <-.
    destruct cells as [|[a w] cells _] using rev_ind.
    { by rewrite (peek_back_empty _ _ H) in E. }
    rewrite (peek_back_sim _ _ _ _ _ H) in E. injection E as <- <-.
    exists (cells ++ [(a, w)]). split; [done|].
    split; [by rewrite fmap_app; cbn; rewrite last_snoc|].
    split; [done|]. split; intros k ? ?; done.
  - rewrite (is_empty_sim _ _ _ H) in Hret. injection Hret as <- <-.
    exists cells. split; [done|]. split; [done|]. split; [done|]. split; intros k ? ?; done.
Qed.

Lemma owns_step m0 m m' d cells cells' :
  deque_repr m d cells → owns m0 m d cells →
  (∀ k, Some k ≠ d → k ∉ cells.*1 → k ∉ cells'.*1 → m' !! k = m !! k) →
  (∀ k, k ∈ cells'.*1 → k ∉ cells.*1 → m !! k = None) →
  (∀ k, k ∈ cells.*1 → k ∉ cells'.*1 → m' !! k = None) →
  owns m0 m' d cells'.
Proof.
  intros H [Ho1 Ho2] F1 F2 F3. pose proof H as [(da & -> & Hd) _ _]. split.
  - intros k [Hk|Hk]; [by apply Ho1; left|].
    destruct (decide (k ∈ cells.*1)) as [Hin|Hnin]; [by apply Ho1; right|].
    rewrite <-Ho2; [by apply F2| |done]. intros [= ->]. rewrite F2 in Hd; done.
  - intros k Hkd Hk. destruct (decide (k ∈ cells.*1)) as [Hin|Hnin].
    + rewrite F3 by done. symmetry. apply Ho1. by right.
    + rewrite F1 by done. by apply Ho2.
Qed.

Lemma deque_alloc_owns A m0 d m1 :
  deque_alloc A m0 = Returns (Some d) m1 → owns m0 m1 (Some d) [].
Proof.
  intros H. pose proof (deque_alloc_spec A m0) as Hs.
  destruct (alloc A m0) as [a|] eqn:Ha; rewrite Hs in H; [|done].
  injection H as <- <-. pose proof (alloc_fresh _ _ _ Ha). split.
  - intros k [[= ->]|Hk]; [done|]. by apply elem_of_nil in Hk.
  - intros k Hk _. by lookup.
Qed.

Lemma run_owns A m0 d ops : ∀ m cells rs m',
  deque_repr m d cells → owns m0 m d cells →
  run A d ops m = Returns rs m' →
  ∃ cells', deque_repr m' d cells' ∧ owns m0 m' d cells' ∧
            Ref.run ops cells.*2 = Some (rs, cells'.*2).
Proof.
  induction ops as [|o ops IH]; intros m cells rs m' H Ho Hr; cbn [run Ref.run] in *.
  - injection Hr as <- <-. by exists cells.
  - unfold mbind, M_bind, bind in Hr.
    destruct (exec_op A d o m) as [r m1| |] eqn:E; [|done..].
    destruct (exec_op_frame _ _ _ _ _ _ _ H E) as (c1 & H1 & Hx & F1 & F2 & F3).
    pose proof (owns_step _ _ _ _ _ _ H Ho F1 F2 F3) as Ho1.
    destruct (run A d ops m1) as [rs1 m2| |] eqn:E1; [|done..].
    injection Hr as <- <-.
    destruct (IH _ _ _ _ H1 Ho1 E1) as (c2 & H2 & Ho2 & Hr2).
    exists c2. split; [done|]. split; [done|]. by rewrite Hx, Hr2.
Qed.

Lemma drain_owns m0 fuel : ∀ m d cells,
  deque_repr m d cells → owns m0 m d cells → (length cells ≤ fuel)%nat →
  ∃ m', drain fuel d m = Returns cells.*2 m' ∧ deque_repr m' d [] ∧ owns m0 m' d [].
Proof.
  induction fuel as [|fuel IH]; intros m d cells H Ho Hlen.
  - destruct cells; [|simpl in Hlen; lia]. by exists m.
  - cbn [drain]. rewrite (bind_returns _ _ _ _ _ (is_empty_sim _ _ _ H)).
    destruct cells as [|[a v] cells]; [by exists m|].
    rewrite bool_decide_false by done.
    destruct (pop_front_sim _ _ _ _ _ H) as (m1 & Hp & H1 & Hfree & Hfr).
    rewrite (bind_returns _ _ _ _ _ Hp).
    assert (owns m0 m1 d cells) as Ho1.
    { eapply owns_step; [exact H|exact Ho|..].
      - intros k ? Hk ?. apply Hfr; [|done]. intros ->. apply Hk. cbn. left.
      - intros k ? Hk. exfalso. apply Hk. cbn. by right.
      - intros k [-> | ?]%elem_of_cons ?; done. }
    destruct (IH m1 d cells H1 Ho1) as (m2 & Hd & H2 & Ho2); [simpl in Hlen; lia|].
    rewrite (bind_returns _ _ _ _ _ Hd). by exists m2.
Qed.

Lemma free_owned m0 m d :
  deque_repr m d [] → owns m0 m d [] → deque_free d m = Returns tt m0.
Proof.
  intros [(da & -> & Hd) _ _] [Ho1 Ho2]. unfold deque_free.
  erewrite free_returns by done. f_equal. apply map_eq. intros k.
  destruct (decide (k = da)) as [->|Hk].
  - rewrite lookup_delete_eq. symmetry. apply Ho1. by left.
  - rewrite lookup_delete_ne by done. apply Ho2; [congruence|]. apply not_elem_of_nil.
Qed.

Lemma ref_run_length ops : ∀ l rs l',
  Ref.run ops l = Some (rs, l') → (length l' ≤ length l + length ops)%nat.
Proof.
  induction ops as [|o ops IH]; intros l rs l' H; cbn [Ref.run] in H.
  - injection H as <- <-. lia.
  - destruct (Ref.exec_op o l) as [[r l1]|] eqn:E; [|done].
    destruct (Ref.run ops l1) as [[rs1 l2]|] eqn:E1; [|done].
    injection H as <- <-. apply IH in E1. cbn [length].
    assert (length l1 ≤ S (length l))%nat; [|lia].
    destruct o; cbn in E.
    + injection E as <- <-. simpl. lia.
    + injection E as <- <-. rewrite length_app. simpl. lia.
    + destruct l; [done|]. injection E as <- <-. simpl. lia.
    + destruct (last l) eqn:El; [|done]. injection E as <- <-.
      apply last_Some in El as [l0 ->].
      rewrite removelast_last, length_app. simpl. lia.
    + destruct l; [done|]. injection E as <- <-. simpl. lia.
    + destruct (last l); [|done]. injection E as <- <-. lia.
    + injection E as <- <-. lia.
Qed.

Lemma owned_size m0 m d cells :
  deque_repr m d cells → owns m0 m d cells →
  size m = (size m0 + 1 + length cells)%nat.
Proof.
  intros H [Ho1 Ho2]. pose proof H as [(da & -> & Hd) Hnd _].
  assert (dom m = dom m0 ∪ ({[da]} ∪ list_to_set cells.*1)) as Hdom.
  { apply set_eq. intros k. rewrite !elem_of_union, elem_of_singleton,
      elem_of_list_to_set, !elem_of_dom.
    destruct (decide (k = da)) as [Heq|Hk].
    { subst k. split; [naive_solver|]. intros _. by eexists. }
    destruct (decide (k ∈ cells.*1)) as [Hin|Hnin].
    - destruct (repr_addr_live _ _ _ _ H Hin) as [n Hn]. split; [naive_solver|].
      intros _. by eexists.
    - rewrite Ho2 by (done || congruence). split; [auto|].
      intros [?|[?|?]]; done. }
  rewrite <-!size_dom, Hdom. rewrite size_union; [rewrite size_union|].
  - rewrite size_singleton, size_list_to_set, length_fmap by done. lia.
  - apply disjoint_singleton_l. rewrite elem_of_list_to_set.
    by eapply repr_header_not_cell.
  - apply elem_of_disjoint. intros k Hk0 Hk.
    apply elem_of_dom in Hk0 as [x Hx].
    rewrite Ho1 in Hx; [done|].
    apply elem_of_union in Hk as [->%elem_of_singleton|?%elem_of_list_to_set]; auto.
Qed.

Lemma repr_frame m m' d cells :
  deque_repr m d cells →
  (∀ k, Some k = d ∨ k ∈ cells.*1 → m' !! k = m !! k) →
  deque_repr m' d cells.
Proof.
  intros [(da & -> & Hd) Hnd Hn] Hfr. split; [|done|].
  - exists da. split; [done|]. rewrite Hfr; [done|by left].
  - intros i a v Hi. destruct (Hn i a v Hi) as (n & Ha & Hrest).
    exists n. split; [|done]. rewrite Hfr; [done|]. right.
    eapply list_elem_of_lookup_2. by eapply lookup_fst.
Qed.

Lemma both_hold_sym m d1 l1 d2 l2 :
  both_hold m d1 l1 d2 l2 → both_hold m d2 l2 d1 l1.
Proof.
  intros (c1 & c2 & ? & ? & ? & ? & ? & Hdisj).
  exists c2, c1. repeat (split; [done|]). intros a Ha Ha'. by apply (Hdisj a).
Qed.

Lemma alloc_second A m d1 l1 d2 m2 :
  models m d1 l1 → deque_alloc A m = Returns (Some d2) m2 →
  both_hold m2 d1 l1 (Some d2) [].
Proof.
  intros (c1 & Hc1 & H1) Ha. pose proof (deque_alloc_repr _ _ _ _ Ha) as H2.
  pose proof (deque_alloc_owns _ _ _ _ Ha) as [Ho1 Ho2].
  pose proof H1 as [(da & -> & Hd) _ _].
  assert (da ≠ d2). { intros ->. rewrite Ho1 in Hd; [done|by left]. }
  exists c1, []. split; [done|]. split; [done|]. split; [|split; [done|]].
  - eapply repr_frame; [exact H1|]. intros k Hk. apply Ho2; [|apply not_elem_of_nil].
    intros [= ->]. destruct Hk as [[= ->]|Hk]; [done|].
    destruct (repr_addr_live _ _ _ _ H1 Hk) as [n Hn]. rewrite Ho1 in Hn; [done|by left].
  - split; [congruence|]. intros a _. apply not_elem_of_nil.
Qed.

Lemma both_hold_step A m d1 c1 d2 c2 o r m' :
  deque_repr m d1 c1 → deque_repr m d2 c2 → d1 ≠ d2 →
  (∀ a, a ∈ c1.*1 → a ∉ c2.*1) →
  exec_op A d1 o m = Returns r m' →
  ∃ c1', deque_repr m' d1 c1' ∧ deque_repr m' d2 c2 ∧
         (∀ a, a ∈ c1'.*1 → a ∉ c2.*1) ∧
         Ref.exec_op o c1.*2 = Some (r, c1'.*2).
Proof.
  intros H1 H2 Hne Hdisj E.
  destruct (exec_op_frame _ _ _ _ _ _ _ H1 E) as (c1' & H1' & Hx & F1 & F2 & F3).
  assert (∀ a, a ∈ c1'.*1 → a ∉ c2.*1) as Hdisj'.
  { intros a Ha Ha2. destruct (decide (a ∈ c1.*1)) as [Hin|Hnin]; [by apply (Hdisj a)|].
    destruct (repr_addr_live _ _ _ _ H2 Ha2) as [n Hn]. by rewrite F2 in Hn. }
  exists c1'. split; [done|]. split; [|done].
  eapply repr_frame; [exact H2|]. intros k Hk.
  pose proof H1 as [(da1 & -> & Hd1) _ _]. pose proof H2 as [(da2 & -> & Hd2) _ _].
  destruct Hk as [[= ->]|Hk].
  - apply F1; [done| |].
    + intros Hin. destruct (repr_addr_live _ _ _ _ H1 Hin) as [n Hn]. congruence.
    + intros Hin. destruct (decide (da2 ∈ c1.*1)) as [Hin1|Hnin].
      * destruct (repr_addr_live _ _ _ _ H1 Hin1) as [n Hn]. congruence.
      * rewrite F2 in Hd2; done.
  - destruct (repr_addr_live _ _ _ _ H2 Hk) as [n Hn]. apply F1.
    + intros [= ->]. congruence.
    + intros Hin. by apply (Hdisj k).
    + intros Hin. by apply (Hdisj' k).
Qed.

(** X4.  Two deques in one memory do not interfere.  When the memory holds
    two separate deques, any run of operations on the first that returns
    has the results of the reference model and leaves the second with
    exactly the values it had; the two are still separate afterwards.
    ([both_hold] is symmetric, so the same holds with the roles swapped.) *)
Theorem deques_do_not_interfere A ops : ∀ m d1 l1 d2 l2 rs m',
  both_hold m d1 l1 d2 l2 →
  run A d1 ops m = Returns rs m' →
  ∃ l1', Ref.run ops l1 = Some (rs, l1') ∧ both_hold m' d1 l1' d2 l2.
Proof.
  induction ops as [|o ops IH]; intros m d1 l1 d2 l2 rs m' Hb Hr; cbn [run Ref.run] in *.
  - injection Hr as <- <-. by exists l1.
  - unfold mbind, M_bind, bind in Hr.
    destruct (exec_op A d1 o m) as [r m1| |] eqn:E; [|done..].
    destruct (run A d1 ops m1) as [rs1 m2| |] eqn:E1; [|done..].
    injection Hr as <- <-.
    destruct Hb as (c1 & c2 & <- & <- & H1 & H2 & Hne & Hdisj).
    destruct (both_hold_step _ _ _ _ _ _ _ _ _ H1 H2 Hne Hdisj E)
      as (c1' & H1' & H2' & Hdisj' & Hx).
    destruct (IH m1 d1 c1'.*2 d2 c2.*2 rs1 m2) as (l1' & Hr' & Hb'); [|done|].
    { by exists c1', c2. }
    exists l1'. split; [|done]. by rewrite Hx, Hr'.
Qed.

Lemma deques_do_not_interfere_witness :
  ∃ l1', Ref.run [PushFront 0; PopBack] [1] = Some ([Done; Value 1], l1') ∧
         both_hold (mem_two_after fresh_d [PushFront 0; PopBack]) fresh_d l1' second_d [].
Proof.
  apply (deques_do_not_interfere bump [PushFront 0; PopBack] mem_two fresh_d [1] second_d []).
  - apply (alloc_second bump (mem_after [PushBack 1]) fresh_d [1] 3%positive mem_two).
    + apply (mem_after_run [PushBack 1] [Done] [1]). reflexivity.
    + vm_compute. reflexivity.
  - vm_compute. reflexivity.
Defined.

Lemma run_from_alloc_owns A m0 d m1 ops rs m :
  deque_alloc A m0 = Returns (Some d) m1 →
  run A (Some d) ops m1 = Returns rs m →
  ∃ cells, deque_repr m (Some d) cells ∧ owns m0 m (Some d) cells ∧
           Ref.run ops [] = Some (rs, cells.*2).
Proof.
  intros Ha Hr.
  exact (run_owns A m0 (Some d) ops m1 [] rs m
           (deque_alloc_repr _ _ _ _ Ha) (deque_alloc_owns _ _ _ _ Ha) Hr).
Qed.

(** X3.  A full lifetime gives all memory back.  Create a deque, run any
    operations on it that return, pop everything with [pop_front] and call
    [deque_free]: the memory is then exactly the memory before
    [deque_alloc].  No block of the deque is left and no other block was
    touched. *)
Theorem lifecycle_restores_memory A m0 d m1 ops rs m fuel :
  deque_alloc A m0 = Returns (Some d) m1 →
  run A (Some d) ops m1 = Returns rs m →
  (length ops ≤ fuel)%nat →
  ∃ l m2, Ref.run ops [] = Some (rs, l) ∧
          drain fuel (Some d) m = Returns l m2 ∧
          deque_free (Some d) m2 = Returns tt m0.
Proof.
  intros Ha Hr Hfuel.
  destruct (run_from_alloc_owns _ _ _ _ _ _ _ Ha Hr) as (cells & H & Ho & Hl).
  assert (length cells ≤ fuel)%nat as Hlen.
  { apply ref_run_length in Hl. rewrite length_fmap in Hl. simpl in Hl. lia. }
  destruct (drain_owns m0 fuel m (Some d) cells H Ho Hlen) as (m2 & Hd & H2 & Ho2).
  exists cells.*2, m2. split; [done|]. split; [done|]. by apply free_owned.
Qed.

Lemma lifecycle_restores_memory_witness :
  ∃ l m2, Ref.run [PushBack 1; PushFront 0; PopBack; PushBack 2] []
          = Some ([Done; Done; Value 1; Done], l) ∧
          drain 4 fresh_d (mem_after [PushBack 1; PushFront 0; PopBack; PushBack 2])
          = Returns l m2 ∧
          deque_free fresh_d m2 = Returns tt ∅.
Proof.
  apply (lifecycle_restores_memory bump ∅ 1%positive (mem_after [])
           [PushBack 1; PushFront 0; PopBack; PushBack 2] [Done; Done; Value 1; Done]).
  - vm_compute. reflexivity.
  - vm_compute. reflexivity.
  - simpl. lia.
Defined.

(** X5.  No leak while the deque lives.  In every state reached from
    [deque_alloc] the number of live blocks is that of the initial memory,
    plus one for the header, plus one per element the deque holds; and
    every block of the initial memory still has its initial content. *)
Theorem live_blocks_accounted A m0 d m1 ops rs m :
  deque_alloc A m0 = Returns (Some d) m1 →
  run A (Some d) ops m1 = Returns rs m →
  ∃ l, Ref.run ops [] = Some (rs, l) ∧
       size m = (size m0 + 1 + length l)%nat ∧
       ∀ k, is_Some (m0 !! k) → m !! k = m0 !! k.
Proof.
  intros Ha Hr.
  destruct (run_from_alloc_owns _ _ _ _ _ _ _ Ha Hr) as (cells & H & Ho & Hl).
  exists cells.*2. split; [done|]. split.
  - rewrite length_fmap. by eapply owned_size.
  - intros k [x Hx]. destruct Ho as [Ho1 Ho2]. apply Ho2.
    + intros Hk. rewrite Ho1 in Hx; [done|by left].
    + intros Hk. rewrite Ho1 in Hx; [done|by right].
Qed.

Lemma live_blocks_accounted_witness :
  ∃ l, Ref.run [PushBack 1; PushFront 0; PopBack; PushBack 2] []
       = Some ([Done; Done; Value 1; Done], l) ∧
       size (mem_after [PushBack 1; PushFront 0; PopBack; PushBack 2])
       = (size (∅ : mem) + 1 + length l)%nat ∧
       ∀ k, is_Some ((∅ : mem) !! k) →
            mem_after [PushBack 1; PushFront 0; PopBack; PushBack 2] !! k = (∅ : mem) !! k.
Proof.
  apply (live_blocks_accounted bump ∅ 1%positive (mem_after [])
           [PushBack 1; PushFront 0; PopBack; PushBack 2] [Done; Done; Value 1; Done]);
    vm_compute; reflexivity.
Defined.

(** X1.  [deque_free] releases the header only.  Called on a deque that
    holds [n] elements it returns, the header is gone, and [n] blocks more
    than in the initial memory stay live: every node leaks.  Only for an
    empty deque is the initial memory restored. *)
Theorem free_leaks_every_node A m0 d m1 ops rs m :
  deque_alloc A m0 = Returns (Some d) m1 →
  run A (Some d) ops m1 = Returns rs m →
  ∃ l m', Ref.run ops [] = Some (rs, l) ∧
          deque_free (Some d) m = Returns tt m' ∧
          m' !! d = None ∧
          size m' = (size m0 + length l)%nat ∧
          (l = [] → m' = m0).
Proof.
  intros Ha Hr.
  destruct (run_from_alloc_owns _ _ _ _ _ _ _ Ha Hr) as (cells & H & Ho & Hl).
  pose proof H as [(da & [= <-] & Hd) _ _].
  exists cells.*2, (delete d m). split; [done|].
  split; [unfold deque_free; by erewrite free_returns|].
  split; [apply lookup_delete_eq|]. split.
  - pose proof (owned_size _ _ _ _ H Ho) as Hs.
    pose proof (map_size_delete_Some d m (mk_is_Some _ _ Hd)) as Hs'.
    rewrite length_fmap. unfold addr in *. lia.
  - intros Hnil. apply fmap_nil_inv in Hnil as ->.
    pose proof (free_owned _ _ _ H Ho) as Hf. unfold deque_free in Hf.
    erewrite free_returns in Hf by done. by injection Hf.
Qed.

Lemma free_leaks_every_node_witness :
  ∃ l m', Ref.run [PushBack 1; PushBack 2] [] = Some ([Done; Done], l) ∧
          deque_free (Some 1%positive) (mem_after [PushBack 1; PushBack 2]) = Returns tt m' ∧
          m' !! 1%positive = None ∧
          size m' = (size (∅ : mem) + length l)%nat ∧
          (l = [] → m' = ∅).
Proof.
  apply (free_leaks_every_node bump ∅ 1%positive (mem_after [])
           [PushBack 1; PushBack 2] [Done; Done]); vm_compute; reflexivity.
Defined.

Lemma load_deque_not_header d m :
  (∀ a ds, d = Some a → m !! a ≠ Some (Deque ds)) → load_deque d m = Undefined m.
Proof.
  intros H. unfold load_deque. destruct d as [a|]; [|done].
  destruct (m !! a) as [[| ds |]|] eqn:E; try done. by destruct (H a ds).
Qed.

Lemma get_head_not_header d m :
  (∀ a ds, d = Some a → m !! a ≠ Some (Deque ds)) → get_head d m = Undefined m.
Proof. intros H. unfold get_head. apply bind_undefined. by apply load_deque_not_header. Qed.

Lemma get_tail_not_header d m :
  (∀ a ds, d = Some a → m !! a ≠ Some (Deque ds)) → get_tail d m = Undefined m.
Proof. intros H. unfold get_tail. apply bind_undefined. by apply load_deque_not_header. Qed.

Lemma push_front_not_header A d v m :
  (∀ a ds, d = Some a → m !! a ≠ Some (Deque ds)) →
  ¬ returns_to_caller (deque_push_front A d v m).
Proof.
  intros H (r & m' & Hr). revert Hr. unfold deque_push_front.
  destruct (alloc A m) as [n|] eqn:Ha.
  - rewrite (bind_returns _ _ _ _ _ (malloc_returns _ _ _ Ha)).
    rewrite bool_decide_true by done. erewrite bind_returns by reflexivity.
    erewrite (bind_undefined (get_head d)); [done|].
    apply get_head_not_header. intros a ds -> Hl.
    destruct (decide (n = a)) as [->|Hne]; [by rewrite lookup_insert_eq in Hl|].
    rewrite lookup_insert_ne in Hl by done. by eapply H.
  - by rewrite (bind_returns _ _ _ _ _ (malloc_fails _ _ Ha)).
Qed.

Lemma push_back_not_header A d v m :
  (∀ a ds, d = Some a → m !! a ≠ Some (Deque ds)) →
  ¬ returns_to_caller (deque_push_back A d v m).
Proof.
  intros H (r & m' & Hr). revert Hr. unfold deque_push_back.
  destruct (alloc A m) as [n|] eqn:Ha.
  - rewrite (bind_returns _ _ _ _ _ (malloc_returns _ _ _ Ha)).
    rewrite bool_decide_true by done. erewrite bind_returns by reflexivity.
    erewrite (bind_undefined (get_tail d)); [done|].
    apply get_tail_not_header. intros a ds -> Hl.
    destruct (decide (n = a)) as [->|Hne]; [by rewrite lookup_insert_eq in Hl|].
    rewrite lookup_insert_ne in Hl by done. by eapply H.
  - by rewrite (bind_returns _ _ _ _ _ (malloc_fails _ _ Ha)).
Qed.

Lemma exec_op_not_header A d o m :
  (∀ a ds, d = Some a → m !! a ≠ Some (Deque ds)) →
  ¬ returns_to_caller (exec_op A d o m).
Proof.
  intros H (r & m' & Hr). destruct o as [v|v| | | | |]; cbn [exec_op] in Hr.
  - unfold mbind, M_bind, bind in Hr.
    destruct (deque_push_front A d v m) as [x m1| |] eqn:E; [|done..].
    apply (push_front_not_header A d v m H). by exists x, m1.
  - unfold mbind, M_bind, bind in Hr.
    destruct (deque_push_back A d v m) as [x m1| |] eqn:E; [|done..].
    apply (push_back_not_header A d v m H). by exists x, m1.
  - unfold deque_pop_front in Hr.
    by erewrite (bind_undefined (_ ≫= _)) in Hr
      by (by apply bind_undefined, get_head_not_header).
  - unfold deque_pop_back in Hr.
    by erewrite (bind_undefined (_ ≫= _)) in Hr
      by (by apply bind_undefined, get_tail_not_header).
  - unfold deque_peek_front in Hr.
    by erewrite (bind_undefined (_ ≫= _)) in Hr
      by (by apply bind_undefined, get_head_not_header).
  - unfold deque_peek_back in Hr.
    by erewrite (bind_undefined (_ ≫= _)) in Hr
      by (by apply bind_undefined, get_tail_not_header).
  - unfold deque_is_empty in Hr.
    by erewrite (bind_undefined (_ ≫= _)) in Hr
      by (by apply bind_undefined, get_head_not_header).
Qed.

(** X6.  After [deque_free] every use of the handle is a use after free.
    [deque_free] returns and the header block is no longer live.  From
    then on each operation on the handle is undefined behaviour, because
    it reads [d->head] or [d->tail] in the freed block; the one exception
    is a push whose [malloc] fails, which stops at its [assert] before it
    reads the handle.  A second [deque_free] is undefined too (double
    free).  Being undefined, such a call has no guaranteed behaviour at
    all: on a real machine it may crash or may seem to return a value. *)
Theorem use_after_free_is_undefined A m d l :
  models m d l →
  ∃ m', deque_free d m = Returns tt m' ∧
        (∀ da, d = Some da → m' !! da = None) ∧
        (∀ o, (∃ mf, exec_op A d o m' = Undefined mf) ∨
              (exec_op A d o m' = Aborted m' ∧ alloc A m' = None ∧
               ∃ v, o = PushFront v ∨ o = PushBack v)) ∧
        deque_free d m' = Undefined m'.
Proof.
  intros (cells & _ & [(da & -> & Hd) _ _]).
  exists (delete da m). split; [unfold deque_free; by erewrite free_returns|].
  split; [intros ? [= <-]; apply lookup_delete_eq|]. split.
  - intros o.
    assert (¬ returns_to_caller (exec_op A (Some da) o (delete da m))) as Hnr.
    { apply exec_op_not_header. intros a ds [= <-]. by rewrite lookup_delete_eq. }
    destruct (exec_op A (Some da) o (delete da m)) as [r m1|m1|m1] eqn:E.
    + destruct Hnr. by exists r, m1.
    + right. destruct (exec_op_aborted _ _ _ _ _ E) as [-> Ha].
      split; [done|]. split; [done|].
      destruct o as [v|v| | | | |]; eauto; exfalso; cbn [exec_op] in E;
        unfold mbind, M_bind, bind in E.
      * destruct (deque_pop_front _ _) eqn:E'; [done| |done].
        by apply never_aborts_pop_front in E'.
      * destruct (deque_pop_back _ _) eqn:E'; [done| |done].
        by apply never_aborts_pop_back in E'.
      * destruct (deque_peek_front _ _) eqn:E'; [done| |done].
        by apply never_aborts_peek_front in E'.
      * destruct (deque_peek_back _ _) eqn:E'; [done| |done].
        by apply never_aborts_peek_back in E'.
      * destruct (deque_is_empty _ _) eqn:E'; [done| |done].
        by apply never_aborts_is_empty in E'.
    + left. by exists m1.
  - unfold deque_free, free. by rewrite lookup_delete_eq.
Qed.

Lemma use_after_free_is_undefined_witness :
  ∃ m', deque_free fresh_d (mem_after [PushBack 1]) = Returns tt m' ∧
        (∀ da, fresh_d = Some da → m' !! da = None) ∧
        (∀ o, (∃ mf, exec_op bump fresh_d o m' = Undefined mf) ∨
              (exec_op bump fresh_d o m' = Aborted m' ∧ alloc bump m' = None ∧
               ∃ v, o = PushFront v ∨ o = PushBack v)) ∧
        deque_free fresh_d m' = Undefined m'.
Proof.
  apply (use_after_free_is_undefined bump (mem_after [PushBack 1]) fresh_d [1]).
  apply (mem_after_run [PushBack 1] [Done] [1]). reflexivity.
Defined.

(** X2.  The only way an operation aborts: it is a push, [malloc] returned
    [NULL], and the memory at the abort is exactly the memory before the
    call.  Pops, peeks and [deque_is_empty] contain no [assert]. *)
Theorem abort_means_failed_allocation A d o m m' :
  exec_op A d o m = Aborted m' →
  m' = m ∧ alloc A m = None ∧ ∃ v, o = PushFront v ∨ o = PushBack v.
Proof.
  intros H. destruct (exec_op_aborted _ _ _ _ _ H) as [-> Ha].
  split; [done|]. split; [done|].
  destruct o as [v|v| | | | |]; eauto; exfalso; cbn [exec_op] in H;
    unfold mbind, M_bind, bind in H.
  - destruct (deque_pop_front d m) eqn:E; [done| |done]. by apply never_aborts_pop_front in E.
  - destruct (deque_pop_back d m) eqn:E; [done| |done]. by apply never_aborts_pop_back in E.
  - destruct (deque_peek_front d m) eqn:E; [done| |done]. by apply never_aborts_peek_front in E.
  - destruct (deque_peek_back d m) eqn:E; [done| |done]. by apply never_aborts_peek_back in E.
  - destruct (deque_is_empty d m) eqn:E; [done| |done]. by apply never_aborts_is_empty in E.
Qed.

Lemma abort_means_failed_allocation_witness :
  mem_after [PushBack 1] = mem_after [PushBack 1] ∧
  alloc (bounded 2) (mem_after [PushBack 1]) = None ∧
  ∃ v, PushBack 2 = PushFront v ∨ PushBack 2 = PushBack v.
Proof.
  apply (abort_means_failed_allocation (bounded 2) fresh_d (PushBack 2)
           (mem_after [PushBack 1]) (mem_after [PushBack 1])).
  vm_compute. reflexivity.
Defined.

(** X8.  Queue behaviour in the other direction.  Pushing the values [vs]
    with [push_front] onto a freshly created deque and popping as many
    times with [pop_back] returns them in the order they were pushed and
    leaves the deque empty. *)
Theorem push_front_pop_back_fifo A m0 d m1 vs :
  deque_alloc A m0 = Returns (Some d) m1 →
  unless_oom A
    (run A (Some d) ((PushFront <$> vs) ++ replicate (length vs) PopBack) m1)
    (λ rs m, rs = replicate (length vs) Done ++ (Value <$> vs) ∧ models m (Some d) []).
Proof.
  intros Ha. eapply run_from_fresh; [exact Ha|].
  rewrite ref_run_app, ref_run_push_front, app_nil_r.
  pose proof (ref_run_pop_back (reverse vs) []) as Hpop.
  rewrite length_reverse, reverse_involutive in Hpop. cbn [app] in Hpop.
  by rewrite Hpop.
Qed.

Lemma push_front_pop_back_fifo_witness :
  unless_oom bump
    (run bump fresh_d ((PushFront <$> [4; 5; 6]) ++ replicate (length [4; 5; 6]) PopBack)
       (mem_after []))
    (λ rs m, rs = replicate (length [4; 5; 6]) Done ++ (Value <$> [4; 5; 6]) ∧
             models m fresh_d []).
Proof.
  apply (push_front_pop_back_fifo bump ∅ 1%positive (mem_after []) [4; 5; 6]).
  vm_compute. reflexivity.
Defined.

(** X7.  A [NULL] handle, as [deque_alloc] returns it when [malloc] fails,
    must not be used: no operation on it comes back to the caller.
    [deque_free] alone accepts it, and does nothing. *)
Theorem null_handle_never_returns A m o :
  ¬ returns_to_caller (exec_op A None o m) ∧ deque_free None m = Returns tt m.
Proof. split; [|done]. by apply exec_op_not_header. Qed.

(** X12.  What [deque_alloc] does.  Either [malloc] fails, and it returns
    [NULL] with the memory unchanged; or it returns the address of a block
    that was not live, leaves every other block as it was, and the new
    deque is empty: it holds no value and [deque_is_empty] returns true. *)
Theorem deque_alloc_contract A m0 :
  (alloc A m0 = None ∧ deque_alloc A m0 = Returns None m0) ∨
  (∃ d m1, deque_alloc A m0 = Returns (Some d) m1 ∧
           m0 !! d = None ∧ (∀ k, k ≠ d → m1 !! k = m0 !! k) ∧
           models m1 (Some d) [] ∧
           deque_is_empty (Some d) m1 = Returns true m1).
Proof.
  pose proof (deque_alloc_spec A m0) as Hs.
  destruct (alloc A m0) as [a|] eqn:Ha; [right|by left].
  eexists a, _. split; [exact Hs|]. split; [by eapply alloc_fresh|]. split.
  - intros k Hk. by lookup.
  - pose proof (deque_alloc_models _ _ _ _ Hs) as Hm. split; [done|].
    by rewrite (is_empty_models _ _ _ Hm).
Qed.

Lemma push_pop_dom (m m1 m2 : mem) d cells n :
  deque_repr m d cells → deque_repr m2 d cells →
  m !! n = None → m2 !! n = None →
  (∀ k, k ≠ n → Some k ≠ d → k ∉ cells.*1 → m1 !! k = m !! k) →
  (∀ k, k ≠ n → Some k ≠ d → m2 !! k = m1 !! k) →
  dom m2 = dom m.
Proof.
  intros H H2 Hn Hn2 F1 F2. apply set_eq. intros k. rewrite !elem_of_dom.
  pose proof H as [(da & -> & Hd) _ _]. pose proof H2 as [(da' & [= <-] & Hd2) _ _].
  unfold addr in *.
  destruct (decide (k = n)) as [Heq|Hkn]; [subst k; by rewrite Hn, Hn2|].
  destruct (decide (k = da)) as [Heq|Hkd]; [subst k; by rewrite Hd, Hd2|].
  destruct (decide (k ∈ cells.*1)) as [Hin|Hnin].
  - destruct (repr_addr_live _ _ _ _ H Hin) as [x Hx].
    destruct (repr_addr_live _ _ _ _ H2 Hin) as [y Hy].
    unfold addr in *. by rewrite Hx, Hy.
  - by rewrite F2, F1 by (done || congruence).
Qed.

(** X9.  A push followed by a pop at the same end undoes it.  On every
    deque, [push_front v] then [pop_front] returns [v], leaves the deque
    with the values it had and the memory with the same live blocks; so do
    [push_back v] then [pop_back]. *)
Theorem push_then_pop_same_end A m d l v :
  models m d l →
  unless_oom A ((deque_push_front A d v;; deque_pop_front d) m)
    (λ r m', r = v ∧ models m' d l ∧ dom m' = dom m) ∧
  unless_oom A ((deque_push_back A d v;; deque_pop_back d) m)
    (λ r m', r = v ∧ models m' d l ∧ dom m' = dom m).
Proof.
  intros (cells & <- & H). split.
  - pose proof (push_front_sim A m d cells v H) as Hsim.
    unfold mbind, M_bind, bind.
    destruct (deque_push_front A d v m) as [[] m1|m1|] eqn:E; [| |done].
    + destruct (push_front_frame _ _ _ _ _ _ _ H E) as (n & Hfresh & H1 & F1).
      destruct (pop_front_sim _ _ _ _ _ H1) as (m2 & Hp & H2 & Hfree & F2).
      rewrite Hp. simpl. split; [done|]. split; [by exists cells|].
      by eapply push_pop_dom.
    + by destruct (push_front_aborted _ _ _ _ _ E) as [-> ?].
  - pose proof (push_back_sim A m d cells v H) as Hsim.
    unfold mbind, M_bind, bind.
    destruct (deque_push_back A d v m) as [[] m1|m1|] eqn:E; [| |done].
    + destruct (push_back_frame _ _ _ _ _ _ _ H E) as (n & Hfresh & H1 & F1).
      destruct (pop_back_sim _ _ _ _ _ H1) as (m2 & Hp & H2 & Hfree & F2).
      rewrite Hp. simpl. split; [done|]. split; [by exists cells|].
      by eapply push_pop_dom.
    + by destruct (push_back_aborted _ _ _ _ _ E) as [-> ?].
Qed.

Lemma push_then_pop_same_end_witness :
  unless_oom bump
    ((deque_push_front bump fresh_d 7;; deque_pop_front fresh_d) (mem_after [PushBack 1]))
    (λ r m', r = 7 ∧ models m' fresh_d [1] ∧ dom m' = dom (mem_after [PushBack 1])) ∧
  unless_oom bump
    ((deque_push_back bump fresh_d 7;; deque_pop_back fresh_d) (mem_after [PushBack 1]))
    (λ r m', r = 7 ∧ models m' fresh_d [1] ∧ dom m' = dom (mem_after [PushBack 1])).
Proof.
  apply (push_then_pop_same_end bump (mem_after [PushBack 1]) fresh_d [1] 7).
  apply (mem_after_run [PushBack 1] [Done] [1]). reflexivity.
Defined.

(** X10.  [deque_is_empty] follows the contents.  After a push at either
    end it returns false.  After a pop at either end of a non-empty deque
    it returns true exactly when the deque held one element. *)
Theorem is_empty_tracks_contents A m d l v :
  models m d l →
  unless_oom A ((deque_push_front A d v;; deque_is_empty d) m) (λ b _, b = false) ∧
  unless_oom A ((deque_push_back A d v;; deque_is_empty d) m) (λ b _, b = false) ∧
  (l ≠ [] →
   ∃ m1 m2,
     (_ ← deque_pop_front d; deque_is_empty d) m
     = Returns (bool_decide (length l = 1%nat)) m1 ∧
     (_ ← deque_pop_back d; deque_is_empty d) m
     = Returns (bool_decide (length l = 1%nat)) m2).
Proof.
  intros Hm. split; [|split].
  - destruct Hm as (cells & <- & H).
    eapply unless_oom_bind; [by apply push_front_sim|].
    intros [] m' (n & _ & Hm'). by rewrite (is_empty_sim _ _ _ Hm').
  - destruct Hm as (cells & <- & H).
    eapply unless_oom_bind; [by apply push_back_sim|].
    intros [] m' (n & _ & Hm'). rewrite (is_empty_sim _ _ _ Hm'). simpl.
    rewrite fmap_app. apply bool_decide_false. by destruct (cells.*2).
  - intros Hne.
    assert (∃ x l', l = x :: l') as (x & l1 & Hf) by (destruct l; [done|eauto]).
    assert (∃ y l', l = l' ++ [y]) as (y & l2 & Hb).
    { destruct l as [|y l' _] using rev_ind; [done|eauto]. }
    pose proof Hm as Hm1. rewrite Hf in Hm1. pose proof Hm as Hm2. rewrite Hb in Hm2.
    destruct (pop_front_models _ _ _ _ Hm1) as (m1 & Hp1 & H1).
    destruct (pop_back_models _ _ _ _ Hm2) as (m2 & Hp2 & H2).
    exists m1, m2. split.
    + rewrite (bind_returns _ _ _ _ _ Hp1), (is_empty_models _ _ _ H1). f_equal.
      rewrite Hf. simpl. apply bool_decide_ext. destruct l1; simpl; split; (done || lia).
    + rewrite (bind_returns _ _ _ _ _ Hp2), (is_empty_models _ _ _ H2). f_equal.
      rewrite Hb, length_app. simpl. apply bool_decide_ext.
      destruct l2; simpl; split; (done || lia).
Qed.

Lemma is_empty_tracks_contents_witness :
  unless_oom bump ((deque_push_front bump fresh_d 7;; deque_is_empty fresh_d)
                     (mem_after [PushBack 1])) (λ b _, b = false) ∧
  unless_oom bump ((deque_push_back bump fresh_d 7;; deque_is_empty fresh_d)
                     (mem_after [PushBack 1])) (λ b _, b = false) ∧
  ([1] ≠ [] →
   ∃ m1 m2,
     (_ ← deque_pop_front fresh_d; deque_is_empty fresh_d) (mem_after [PushBack 1])
     = Returns (bool_decide (length [1] = 1%nat)) m1 ∧
     (_ ← deque_pop_back fresh_d; deque_is_empty fresh_d) (mem_after [PushBack 1])
     = Returns (bool_decide (length [1] = 1%nat)) m2).
Proof.
  apply (is_empty_tracks_contents bump (mem_after [PushBack 1]) fresh_d [1] 7).
  apply (mem_after_run [PushBack 1] [Done] [1]). reflexivity.
Defined.

Lemma push_front_models A m d l v :
  models m d l →
  unless_oom A (deque_push_front A d v m) (λ _ m', models m' d (v :: l)).
Proof.
  intros (cells & <- & H). eapply unless_oom_mono; [by apply push_front_sim|].
  intros [] m' (n & _ & Hm'). by exists ((n, v) :: cells).
Qed.

Lemma push_back_models A m d l v :
  models m d l →
  unless_oom A (deque_push_back A d v m) (λ _ m', models m' d (l ++ [v])).
Proof.
  intros (cells & <- & H). eapply unless_oom_mono; [by apply push_back_sim|].
  intros [] m' (n & _ & Hm'). exists (cells ++ [(n, v)]). split; [|done].
  by rewrite fmap_app.
Qed.

(** X11.  What the peeks see after a push.  After [push_front v],
    [peek_front] returns [v] and [peek_back] returns the value that was
    last before (or [v] if the deque was empty).  After [push_back v],
    [peek_back] returns [v] and [peek_front] the value that was first
    before (or [v]). *)
Theorem peeks_after_push A m d l v :
  models m d l →
  unless_oom A
    ((deque_push_front A d v;;
      f ← deque_peek_front d; b ← deque_peek_back d; mret (f, b)) m)
    (λ r _, r = (v, default v (last l))) ∧
  unless_oom A
    ((deque_push_back A d v;;
      f ← deque_peek_front d; b ← deque_peek_back d; mret (f, b)) m)
    (λ r _, r = (default v (hd_error l), v)).
Proof.
  intros Hm. split.
  - eapply unless_oom_bind; [by apply push_front_models|].
    intros [] m' Hm'. rewrite (bind_returns _ _ _ _ _ (peek_front_models _ _ _ _ Hm')).
    cbn beta.
    destruct l as [|y l' _] using rev_ind.
    + rewrite (bind_returns _ _ _ _ _ (peek_back_models m' d v [] Hm')). done.
    + rewrite (bind_returns _ _ _ _ _ (peek_back_models m' d y (v :: l') Hm')).
      simpl. by rewrite last_snoc.
  - eapply unless_oom_bind; [by apply push_back_models|].
    intros [] m' Hm'.
    destruct l as [|x l'].
    + rewrite (bind_returns _ _ _ _ _ (peek_front_models m' d v [] Hm')). cbn beta.
      by rewrite (bind_returns _ _ _ _ _ (peek_back_models m' d v [] Hm')).
    + rewrite (bind_returns _ _ _ _ _ (peek_front_models m' d x (l' ++ [v]) Hm')). cbn beta.
      by rewrite (bind_returns _ _ _ _ _ (peek_back_models m' d v (x :: l') Hm')).
Qed.

Lemma peeks_after_push_witness :
  unless_oom bump
    ((deque_push_front bump fresh_d 7;;
      f ← deque_peek_front fresh_d; b ← deque_peek_back fresh_d; mret (f, b))
       (mem_after [PushBack 1]))
    (λ r _, r = (7, default 7 (last [1]))) ∧
  unless_oom bump
    ((deque_push_back bump fresh_d 7;;
      f ← deque_peek_front fresh_d; b ← deque_peek_back fresh_d; mret (f, b))
       (mem_after [PushBack 1]))
    (λ r _, r = (default 7 (hd_error [1]), 7)).
Proof.
  apply (peeks_after_push bump (mem_after [PushBack 1]) fresh_d [1] 7).
  apply (mem_after_run [PushBack 1] [Done] [1]). reflexivity.
Defined.
